(** * CaresseInvite: image-source pipeline, gallery and language state

    A shallow embedding of the logic of [src/CaresseInvite.tsx] (the named
    page variant) and of its near-duplicate sibling (the second page
    variant), with the properties the specification states about them.

    Conventions.
    - A JavaScript string is a [string]; its characters stand for code
      units.  [includes], [split] and the Set of strings are modelled
      exactly on that representation.
    - A JavaScript number that holds an index, a count or a width is a [Z].
    - An exception is a [Throw] in the [completion] monad; [try_catch] is
      the [try { .. } catch { .. }] statement.
    - [undefined] is [None]: [arr[i]] is list lookup and [arr.pop()] is
      [last].
    - The URL class, [decodeURIComponent] and [toLowerCase] belong to the
      host environment.  They are the fields of [Platform]; every general
      theorem holds for all platforms.  [web] is a concrete
      platform for a documented fragment of the URL standard, used to
      evaluate the code on concrete addresses. *)

From Stdlib Require Import ZArith String Ascii DecimalString Lia.
From stdpp Require Import base list strings gmap.

Set Warnings "-clear-no-such-hyp".

Open Scope string_scope.
Open Scope Z_scope.
Open Scope list_scope.

(** ** JavaScript values and builtins *)

Module JS.

Inductive error := TypeError | URIError | SecurityError | QuotaExceededError.

Inductive completion (A : Type) :=
  | Normal (a : A)
  | Throw (e : error).
Arguments Normal {A} a.
Arguments Throw {A} e.

#[export] Instance completion_ret : MRet completion := @Normal.
#[export] Instance completion_bind : MBind completion := λ A B f c,
  match c with
  | Normal a => f a
  | Throw e => Throw e
  end.

(** [try { body } catch { handler }]. *)
Definition try_catch {A} (body : completion A) (handler : completion A) : completion A :=
  match body with
  | Normal a => Normal a
  | Throw _ => handler
  end.

(** [try { return body } catch { return fallback }] with a handler that is
    a plain value: nothing can escape. *)
Definition try_return {A} (body : completion A) (fallback : A) : A :=
  match body with
  | Normal a => a
  | Throw _ => fallback
  end.

(** Calling a method on a value that may be [undefined]. *)
Definition receiver {A} (o : option A) : completion A :=
  match o with
  | Some a => Normal a
  | None => Throw TypeError
  end.

(** [s.startsWith(p)]. *)
Fixpoint startsWith (s p : string) : bool :=
  match p, s with
  | EmptyString, _ => true
  | String a p', String b s' => if Ascii.eqb a b then startsWith s' p' else false
  | String _ _, EmptyString => false
  end.

(** [s.includes(sub)]. *)
Fixpoint includes (s sub : string) : bool :=
  startsWith s sub ||
  match s with
  | EmptyString => false
  | String _ s' => includes s' sub
  end.

(** [s.split(sep)] for a non-empty separator: [cur] is the piece being
    read and [skip] counts the characters of a matched separator that are
    still to be passed over. *)
Fixpoint split_go (sep : string) (skip : nat) (cur s : string) : list string :=
  match s with
  | EmptyString => [cur]
  | String c s' =>
      match skip with
      | S k => split_go sep k cur s'
      | O =>
          if startsWith s sep
          then cur :: split_go sep (String.length sep - 1) "" s'
          else split_go sep 0 (cur +:+ String c "") s'
      end
  end.

Definition split (s sep : string) : list string := split_go sep 0 "" s.

(** [String(n)] for an integer [n]. *)
Definition String_of (n : Z) : string := NilEmpty.string_of_int (Z.to_int n).

(** [Set<string>]: iteration follows insertion order, so the set is the
    list of its members in the order they were first added. *)
Definition Set_new : list string := [].

Definition Set_add (u : string) (s : list string) : list string :=
  if bool_decide (u ∈ s) then s else s ++ [u].

Definition Array_from (s : list string) : list string := s.

(** A string is falsy exactly when it is empty. *)
Definition truthy (u : string) : bool := negb (String.eqb u "").

End JS.
Import JS.

(** ** The host environment *)

Class Platform := {
  URL : Type;
  (** [new URL(s)]; throws a TypeError when [s] does not parse. *)
  newURL : string → completion URL;
  hostname : URL → string;
  pathname : URL → string;
  (** [u.searchParams.set(name, value)], as the URL object afterwards. *)
  searchParams_set : string → string → URL → URL;
  (** [u.toString()]. *)
  URL_toString : URL → string;
  (** Throws a URIError on a malformed escape sequence. *)
  decodeURIComponent : string → completion string;
  toLowerCase : string → string;
}.

(** The closure [const push = (u) => u && s.add(u)] of [expandSources],
    the same in both variants, as a function of the set it captures. *)
Definition push (s : list string) (u : string) : list string :=
  if truthy u then Set_add u s else s.

(** The shape of both [expandSources]: the sized variants are pushed in
    order, then the primary address. *)
Definition pushed (variants : list string) (primary : string) : list string :=
  push (foldl push Set_new variants) primary.

(** What [expandSources] guarantees for a primary address [url], given the
    sizing function and the widths it tries. *)
Definition guaranteed_fallback
    (sizing : string → Z → string) (widths : list Z)
    (expand : string → list string) (url : string) : Prop :=
  expand url ≠ []
  ∧ NoDup (expand url)
  ∧ url ∈ expand url
  ∧ (Forall (λ w, sizing url w ≠ url) widths → last (expand url) = Some url)
  ∧ (Forall (λ w, sizing url w = url) widths → expand url = [url]).

(** ** The photo key: identical in both variants *)

Section PhotoKey.
Context `{Platform}.

Definition photoKeyFromUrl (url : string) : completion (option string) :=
  try_catch
    (u ← newURL url;
     decoded ← decodeURIComponent (pathname u);
     let path := toLowerCase decoded in
     if includes path "/is/image/" then
       let file := default path (split path "/is/image/" !! 1%nat) in
       let tail := default file (last (split file "/")) in
       t0 ← receiver (split tail ":" !! 0%nat);
       Normal (split t0 "?" !! 0%nat)
     else if includes path "/content/dam/" then
       let tail := default path (last (split path "/")) in
       Normal (split tail "?" !! 0%nat)
     else Normal (Some (hostname u +:+ path)))
    (u0 ← receiver (split url "?" !! 0%nat);
     Normal (Some (toLowerCase u0))).

End PhotoKey.

(** ** The photo catalog: identical in both variants *)

(** An entry of the [raw] table. *)
Record RawPhoto := {
  raw_id : string;
  raw_title : string;
  raw_tag : string;
  primary : string;
}.

Record Photo := {
  id : string;
  title : string;
  tag : option string;
  sources : list string;
}.

Section Catalog.
Context `{Platform}.
Variable expandSources : string → list string.

(** [raw.map((r) => ({ id, title, tag, sources: expandSources(r.primary) }))]. *)
Definition built (raw : list RawPhoto) : list Photo :=
  map (λ r, {| id := raw_id r;
               title := raw_title r;
               tag := Some (raw_tag r);
               sources := expandSources (primary r) |}) raw.

(** The argument of the key function: [p.sources[0] ?? p.id]. *)
Definition key_source (p : Photo) : string := default (id p) (sources p !! 0%nat).

(** The [for (const p of built)] loop over its two accumulators. *)
Fixpoint photos_loop (seen : gset string) (out : list Photo) (todo : list Photo)
  : completion (list Photo) :=
  match todo with
  | [] => Normal out
  | p :: todo =>
      key ← photoKeyFromUrl (key_source p);
      match key with
      | Some k =>
          if negb (truthy k) || bool_decide (k ∈ seen)
          then photos_loop seen out todo
          else photos_loop ({[k]} ∪ seen) (out ++ [p]) todo
      | None => photos_loop seen out todo
      end
  end.

Definition photos (raw : list RawPhoto) : completion (list Photo) :=
  photos_loop ∅ [] (built raw).

(** The key of a photo as a plain string ([photoKeyFromUrl] always returns
    one, see [photoKeyFromUrl_total]). *)
Definition photoKey (p : Photo) : string :=
  match photoKeyFromUrl (key_source p) with
  | Normal (Some k) => k
  | _ => ""
  end.

(** The entries of [todo] that the loop appends when it starts from
    [seen]. *)
Fixpoint kept (seen : gset string) (todo : list Photo) : list Photo :=
  match todo with
  | [] => []
  | p :: todo =>
      if bool_decide (photoKey p = "" ∨ photoKey p ∈ seen)
      then kept seen todo
      else p :: kept ({[photoKey p]} ∪ seen) todo
  end.

(** The keys the loop has seen once it is through [todo]. *)
Fixpoint seen_after (seen : gset string) (todo : list Photo) : gset string :=
  match todo with
  | [] => seen
  | p :: todo =>
      if bool_decide (photoKey p = "" ∨ photoKey p ∈ seen)
      then seen_after seen todo
      else seen_after ({[photoKey p]} ∪ seen) todo
  end.

End Catalog.

(** ** URL sizing and source expansion: the named variant *)

Module Named.
Section Sources.
Context `{Platform}.

Definition smartUrlSizing (url : string) (wid : Z) : string :=
  try_return
    (u ← newURL url;
     if negb (includes (hostname u) "cache.marriott.com") then Normal url
     else if includes (pathname u) "/is/image/" then
       let u := searchParams_set "wid" (String_of wid) u in
       let u := searchParams_set "fit" "constrain" u in
       Normal (URL_toString u)
     else if includes (pathname u) "/content/dam/marriott-renditions/" then
       let u := searchParams_set "downsize" (String_of wid +:+ "px:*") u in
       let u := searchParams_set "output-quality" "86" u in
       let u := searchParams_set "interpolation" "progressive-bilinear" u in
       Normal (URL_toString u)
     else Normal url)
    url.

Definition expandSources (primary : string) : list string :=
  let s := Set_new in
  let s := push s (smartUrlSizing primary 2200) in
  let s := push s (smartUrlSizing primary 1800) in
  let s := push s (smartUrlSizing primary 1400) in
  let s := push s (smartUrlSizing primary 1100) in
  let s := push s (smartUrlSizing primary 900) in
  let s := push s primary in
  Array_from s.

Definition widths : list Z := [2200; 1800; 1400; 1100; 900].

(** The URL objects that the two rewriting branches serialise. *)
Definition sized_image (u : URL) (wid : Z) : URL :=
  searchParams_set "fit" "constrain" (searchParams_set "wid" (String_of wid) u).

Definition sized_rendition (u : URL) (wid : Z) : URL :=
  searchParams_set "interpolation" "progressive-bilinear"
    (searchParams_set "output-quality" "86"
       (searchParams_set "downsize" (String_of wid +:+ "px:*") u)).

(** A property of the URL class at one address: what [toString] returns
    after the [searchParams.set] calls of [smartUrlSizing] parses again,
    to the host name and path name the address had before. *)
Definition reparses (u v : URL) : bool :=
  match newURL (URL_toString v) with
  | Normal u' => String.eqb (hostname u') (hostname u)
                 && String.eqb (pathname u') (pathname u)
  | Throw _ => false
  end.

Definition sizing_reparses (url : string) (wid : Z) : bool :=
  match newURL url with
  | Normal u => reparses u (sized_image u wid) && reparses u (sized_rendition u wid)
  | Throw _ => true
  end.

(** The address does not parse, or the path name of its URL object is
    accepted by [decodeURIComponent]. *)
Definition decodable (url : string) : bool :=
  match newURL url with
  | Normal u => match decodeURIComponent (pathname u) with
                | Normal _ => true
                | Throw _ => false
                end
  | Throw _ => true
  end.

Definition raw : list RawPhoto := [
  {| raw_id := "drone-bay-1"; raw_title := "The private bay: Caresse from above";
     raw_tag := "Aerial • Bay";
     primary := "https://cache.marriott.com/is/image/marriotts7prod/lc-bjvlc-drone-view-23060%3AWide-Hor" |};
  {| raw_id := "drone-resort-2"; raw_title := "Aegean shoreline panorama";
     raw_tag := "Aerial • Panorama";
     primary := "https://cache.marriott.com/is/image/marriotts7prod/lc-bjvlc-drone-view-37065%3AWide-Hor" |};
  {| raw_id := "hotel-exterior"; raw_title := "Resort exterior";
     raw_tag := "Resort";
     primary := "https://cache.marriott.com/is/image/marriotts7prod/lc-bjvlc-hotel-exterior-11389%3AWide-Hor" |};
  {| raw_id := "beach-hero"; raw_title := "Turquoise beach day";
     raw_tag := "Beach";
     primary := "https://cache.marriott.com/content/dam/marriott-renditions/BJVLC/bjvlc-caresse-beach-6997-hor-wide.jpg" |};
  {| raw_id := "private-beach"; raw_title := "Private beach & teak decks";
     raw_tag := "Beach • Deck";
     primary := "https://cache.marriott.com/content/dam/marriott-renditions/BJVLC/bjvlc-private-beach-9546-hor-wide.jpg" |};
  {| raw_id := "cabanas"; raw_title := "Cabanas & daybeds";
     raw_tag := "Beach • Cabanas";
     primary := "https://cache.marriott.com/content/dam/marriott-renditions/BJVLC/bjvlc-cabanas-9527-hor-wide.jpg" |};
  {| raw_id := "pool-main"; raw_title := "Infinity pool above the shoreline";
     raw_tag := "Pool";
     primary := "https://cache.marriott.com/content/dam/marriott-renditions/BJVLC/bjvlc-pool-9526-hor-wide.jpg" |};
  {| raw_id := "sunset-lounge"; raw_title := "Sunset Lounge";
     raw_tag := "Sunset";
     primary := "https://cache.marriott.com/content/dam/marriott-renditions/BJVLC/bjvlc-sunset-lounge-9529-hor-wide.jpg" |};
  {| raw_id := "glass-restaurant"; raw_title := "Glass Restaurant terrace";
     raw_tag := "Dining";
     primary := "https://cache.marriott.com/content/dam/marriott-renditions/BJVLC/bjvlc-glass-restaurant-9570-hor-wide.jpg" |};
  {| raw_id := "buddha-bar"; raw_title := "Buddha-Bar Beach Bodrum";
     raw_tag := "Beach Club";
     primary := "https://cache.marriott.com/content/dam/marriott-renditions/BJVLC/bjvlc-buddha-restaurant-1797-hor-wide.jpg" |};
  {| raw_id := "spa"; raw_title := "Spa Caresse";
     raw_tag := "Wellness";
     primary := "https://cache.marriott.com/content/dam/marriott-renditions/BJVLC/bjvlc-spa-caresse-9616-hor-wide.jpg" |};
  {| raw_id := "indoor-pool"; raw_title := "Indoor pool";
     raw_tag := "Wellness";
     primary := "https://cache.marriott.com/is/image/marriotts7prod/bjvlc-indoor-pool-9613%3AWide-Hor" |}
].

(** The [photos] of this page. *)
Definition catalog : completion (list Photo) := photos expandSources raw.

End Sources.
End Named.

(** ** URL sizing and source expansion: the second variant *)

Module Unnamed.
Section Sources.
Context `{Platform}.

Definition withMarriottSizing (url : string) (wid : Z) : string :=
  try_return
    (u ← newURL url;
     if includes (hostname u) "cache.marriott.com" && includes (pathname u) "/is/image/" then
       let u := searchParams_set "wid" (String_of wid) u in
       let u := searchParams_set "fit" "constrain" u in
       Normal (URL_toString u)
     else if includes (hostname u) "cache.marriott.com"
             && includes (pathname u) "/content/dam/marriott-renditions/" then
       let u := searchParams_set "downsize" (String_of wid +:+ "px:*") u in
       let u := searchParams_set "output-quality" "86" u in
       let u := searchParams_set "interpolation" "progressive-bilinear" u in
       Normal (URL_toString u)
     else Normal url)
    url.

Definition expandSources (primary : string) : list string :=
  let s := Set_new in
  let s := push s (withMarriottSizing primary 2000) in
  let s := push s (withMarriottSizing primary 1600) in
  let s := push s (withMarriottSizing primary 1200) in
  let s := push s (withMarriottSizing primary 900) in
  let s := push s primary in
  Array_from s.

Definition widths : list Z := [2000; 1600; 1200; 900].

Definition raw : list RawPhoto := [
  {| raw_id := "drone-bay-1"; raw_title := "The private bay: Caresse from above";
     raw_tag := "Aerial • Bay";
     primary := "https://cache.marriott.com/is/image/marriotts7prod/lc-bjvlc-drone-view-23060%3AWide-Hor" |};
  {| raw_id := "drone-resort-2"; raw_title := "Aegean shoreline panorama";
     raw_tag := "Aerial • Panorama";
     primary := "https://cache.marriott.com/is/image/marriotts7prod/lc-bjvlc-drone-view-37065%3AWide-Hor" |};
  {| raw_id := "hotel-exterior"; raw_title := "Resort exterior";
     raw_tag := "Resort";
     primary := "https://cache.marriott.com/is/image/marriotts7prod/lc-bjvlc-hotel-exterior-11389%3AWide-Hor" |};
  {| raw_id := "beach-hero"; raw_title := "Turquoise beach day";
     raw_tag := "Beach";
     primary := "https://cache.marriott.com/content/dam/marriott-renditions/BJVLC/bjvlc-caresse-beach-6997-hor-wide.jpg" |};
  {| raw_id := "private-beach"; raw_title := "Private beach & teak decks";
     raw_tag := "Beach • Deck";
     primary := "https://cache.marriott.com/content/dam/marriott-renditions/BJVLC/bjvlc-private-beach-9546-hor-wide.jpg" |};
  {| raw_id := "deck-wide"; raw_title := "Signature decks on the waterline";
     raw_tag := "Deck";
     primary := "https://cache.marriott.com/is/image/marriotts7prod/lc-bjvlc-deck-35144%3AWide-Hor" |};
  {| raw_id := "cabanas"; raw_title := "Cabanas & daybeds";
     raw_tag := "Beach • Cabanas";
     primary := "https://cache.marriott.com/content/dam/marriott-renditions/BJVLC/bjvlc-cabanas-9527-hor-wide.jpg" |};
  {| raw_id := "pool-main"; raw_title := "Infinity pool above the shoreline";
     raw_tag := "Pool";
     primary := "https://cache.marriott.com/content/dam/marriott-renditions/BJVLC/bjvlc-pool-9526-hor-wide.jpg" |};
  {| raw_id := "pool-alt-1"; raw_title := "Poolline with bay views";
     raw_tag := "Pool";
     primary := "https://cache.marriott.com/is/image/marriotts7prod/lc-bjvlc-pool-28022%3AWide-Hor" |};
  {| raw_id := "sunset-lounge"; raw_title := "Sunset Lounge";
     raw_tag := "Sunset";
     primary := "https://cache.marriott.com/content/dam/marriott-renditions/BJVLC/bjvlc-sunset-lounge-9529-hor-wide.jpg" |};
  {| raw_id := "glass-restaurant"; raw_title := "Glass Restaurant terrace";
     raw_tag := "Dining";
     primary := "https://cache.marriott.com/content/dam/marriott-renditions/BJVLC/bjvlc-glass-restaurant-9570-hor-wide.jpg" |};
  {| raw_id := "glass-lounge"; raw_title := "Glass Lounge";
     raw_tag := "Cocktails";
     primary := "https://cache.marriott.com/is/image/marriotts7prod/lc-bjvlc-glass-lounge-27060%3AWide-Hor" |};
  {| raw_id := "buddha-bar"; raw_title := "Buddha-Bar Beach Bodrum";
     raw_tag := "Beach Club";
     primary := "https://cache.marriott.com/content/dam/marriott-renditions/BJVLC/bjvlc-buddha-restaurant-1797-hor-wide.jpg" |};
  {| raw_id := "la-zucca"; raw_title := "La Zucca Pizza Bar";
     raw_tag := "Dining";
     primary := "https://cache.marriott.com/is/image/marriotts7prod/lc-bjvlc-la-zucca-pizza-bar-38504%3AWide-Hor" |};
  {| raw_id := "spa"; raw_title := "Spa Caresse";
     raw_tag := "Wellness";
     primary := "https://cache.marriott.com/content/dam/marriott-renditions/BJVLC/bjvlc-spa-caresse-9616-hor-wide.jpg" |};
  {| raw_id := "spa-hot-tub"; raw_title := "Spa outdoor hot tub";
     raw_tag := "Wellness";
     primary := "https://cache.marriott.com/content/dam/marriott-renditions/BJVLC/bjvlc-spa-caresse-9610-hor-wide.jpg" |};
  {| raw_id := "indoor-pool"; raw_title := "Indoor pool";
     raw_tag := "Wellness";
     primary := "https://cache.marriott.com/is/image/marriotts7prod/bjvlc-indoor-pool-9613%3AWide-Hor" |}
].

(** The [photos] of this page. *)
Definition catalog : completion (list Photo) := photos expandSources raw.

End Sources.
End Unnamed.

(** ** SmartImage: the source cursor *)

Section SmartImage.
Variable svgPlaceholderDataUri : string → string.
Variable sources : list string.

(** [i < sources.length ? sources[i] : svgPlaceholderDataUri(alt)]. *)
Definition SmartImage_src (alt : string) (i : Z) : option string :=
  if i <? Z.of_nat (length sources)
  then sources !! Z.to_nat i
  else Some (svgPlaceholderDataUri alt).

(** The updater of [onError]: [(v) => (v + 1 <= sources.length ? v + 1 : v)]. *)
Definition onError (v : Z) : Z :=
  if v + 1 <=? Z.of_nat (length sources) then v + 1 else v.

(** The cursor after [k] load failures; [useState(0)] starts it. *)
Definition after_failures (k : nat) : Z := Nat.iter k onError 0.

End SmartImage.

(** ** Gallery and lightbox *)

(** [l.slice(start, end)]. *)
Definition relative_index (len k : Z) : Z :=
  if k <? 0 then Z.max (len + k) 0 else Z.min k len.

Definition slice {A} (l : list A) (first final : Z) : list A :=
  let len := Z.of_nat (length l) in
  let first := relative_index len first in
  let final := relative_index len final in
  take (Z.to_nat (final - first)) (drop (Z.to_nat first) l).

Record GalleryState := {
  visibleCount : Z;
  lightboxIndex : option Z;
}.

Inductive GalleryEvent :=
  | ClickThumbnail (i : nat)   (* a button of [visiblePhotos.map] *)
  | ClickFeatured (i : nat)    (* a button of [visiblePhotos.slice(2, 5).map] *)
  | Close
  | Prev
  | Next
  | LoadMore.

(** The updaters of [prev] and [next], for [n = visiblePhotos.length];
    [%] is the remainder of truncated division. *)
Definition prev_index (n : Z) (i : option Z) : option Z :=
  match i with
  | None => None
  | Some i => Some (Z.rem (i - 1 + n) n)
  end.

Definition next_index (n : Z) (i : option Z) : option Z :=
  match i with
  | None => None
  | Some i => Some (Z.rem (i + 1) n)
  end.

Section Gallery.
Variable photos : list Photo.

Definition initial : GalleryState :=
  {| visibleCount := 12; lightboxIndex := None |}.

Definition visiblePhotos (s : GalleryState) : list Photo :=
  slice photos 0 (Z.min (visibleCount s) (Z.of_nat (length photos))).

Definition setLightboxIndex (i : option Z) (s : GalleryState) : GalleryState :=
  {| visibleCount := visibleCount s; lightboxIndex := i |}.

Definition close (s : GalleryState) : GalleryState := setLightboxIndex None s.

Definition prev (s : GalleryState) : GalleryState :=
  setLightboxIndex
    (prev_index (Z.of_nat (length (visiblePhotos s))) (lightboxIndex s)) s.

Definition next (s : GalleryState) : GalleryState :=
  setLightboxIndex
    (next_index (Z.of_nat (length (visiblePhotos s))) (lightboxIndex s)) s.

(** The updater of the load-more button. *)
Definition loadMore (s : GalleryState) : GalleryState :=
  {| visibleCount := Z.min (visibleCount s + 12) (Z.of_nat (length photos));
     lightboxIndex := lightboxIndex s |}.

(** One user event.  [None]: the page does not render the control in
    this state, so the event cannot happen. *)
Definition step (s : GalleryState) (e : GalleryEvent) : option GalleryState :=
  match e with
  | ClickThumbnail i =>
      if bool_decide (i < length (visiblePhotos s))%nat
      then Some (setLightboxIndex (Some (Z.of_nat i)) s) else None
  | ClickFeatured i =>
      if bool_decide (i < length (slice (visiblePhotos s) 2 5))%nat
      then Some (setLightboxIndex (Some (Z.of_nat i + 2)) s) else None
  | Close => Some (close s)
  | Prev => Some (prev s)
  | Next => Some (next s)
  | LoadMore =>
      if visibleCount s <? Z.of_nat (length photos)
      then Some (loadMore s) else None
  end.

Fixpoint run (s : GalleryState) (events : list GalleryEvent) : option GalleryState :=
  match events with
  | [] => Some s
  | e :: events => s' ← step s e; run s' events
  end.

(** An open lightbox points into the visible slice. *)
Definition index_valid (s : GalleryState) : Prop :=
  match lightboxIndex s with
  | None => True
  | Some i => 0 <= i < Z.of_nat (length (visiblePhotos s))
  end.

End Gallery.

(** ** The language preference *)

Inductive Lang := en | fa.

Definition Lang_string (l : Lang) : string :=
  match l with
  | en => "en"
  | fa => "fa"
  end.

(** [window.localStorage]: both calls may throw. *)
Class Storage := {
  store : Type;
  getItem : string → store → completion (option string);
  setItem : string → string → store → completion store;
}.

Record Page `{Storage} := {
  lang : Lang;
  localStorage : store;
}.

Section Language.
Context `{Storage}.

(** The first effect.  Its result is the [setLang] call it makes, if any. *)
Definition restore_effect (st : store) : option Lang :=
  try_return
    (saved ← getItem "wedding_lang" st;
     Normal (match saved with
             | Some v =>
                 if String.eqb v "fa" then Some fa
                 else if String.eqb v "en" then Some en
                 else None
             | None => None
             end))
    None.

(** The second effect, for the language of the render it belongs to. *)
Definition persist_effect (l : Lang) (st : store) : store :=
  try_return (setItem "wedding_lang" (Lang_string l) st) st.

(** Mounting the page: the first render has [lang = "en"]; both effects
    run after it, in source order; a [setLang] to another language causes
    a second render, after which the second effect runs again. *)
Definition mount (st : store) : Page :=
  let requested := restore_effect st in
  let st := persist_effect en st in
  match requested with
  | Some fa => {| lang := fa; localStorage := persist_effect fa st |}
  | _ => {| lang := en; localStorage := st |}
  end.

(** [setLang(l)] after mounting: a new value re-renders and the second
    effect runs; the same value changes nothing. *)
Definition setLang (l : Lang) (p : Page) : Page :=
  match l, lang p with
  | en, en | fa, fa => p
  | _, _ => {| lang := l; localStorage := persist_effect l (localStorage p) |}
  end.

(** The toggle button: [setLang(lang === "en" ? "fa" : "en")]. *)
Definition toggle (p : Page) : Page :=
  setLang (match lang p with en => fa | fa => en end) p.

End Language.

(** A storage for evaluation: a table of items, and whether access is
    denied (every call throws then). *)
Module MemStorage.

Record mem := { items : list (string * string); denied : bool }.

Fixpoint lookup (k : string) (l : list (string * string)) : option string :=
  match l with
  | [] => None
  | (k', v) :: l => if String.eqb k' k then Some v else lookup k l
  end.

Fixpoint update (k v : string) (l : list (string * string)) : list (string * string) :=
  match l with
  | [] => [(k, v)]
  | (k', v') :: l => if String.eqb k' k then (k', v) :: l else (k', v') :: update k v l
  end.

Definition storage : Storage := {|
  store := mem;
  getItem k m := if denied m then Throw SecurityError else Normal (lookup k (items m));
  setItem k v m :=
    if denied m then Throw SecurityError
    else Normal {| items := update k v (items m); denied := false |};
|}.

End MemStorage.

(** ** A concrete platform

    [web] follows the URL standard on absolute [http] and [https]
    addresses of the form [scheme://host/path?query#fragment] in which
    - the host is made of letters, digits, dots and hyphens, has no
      user, password or port, and its last label starts with a letter;
    - path, query and fragment consist of printable ASCII characters that
      the standard serialises unchanged, and no path segment starts with
      a dot or an escaped dot.
    On these, the parsed components are the substrings of the input, with
    scheme and host in lower case and an empty path read as [/].  The
    empty string and strings without a scheme are parse failures, as in
    the standard.  Every other input is outside the fragment and is
    rejected as well; the model is only evaluated on addresses of the
    fragment and on strings without a scheme. *)

Module Web.

Definition code (c : ascii) : N := N_of_ascii c.

Definition between (lo hi : N) (c : ascii) : bool :=
  ((lo <=? code c) && (code c <=? hi))%N.

Definition is_upper := between 65 90.
Definition is_lower := between 97 122.
Definition is_digit := between 48 57.
Definition is_alnum (c : ascii) : bool := is_upper c || is_lower c || is_digit c.

Definition one_of (set : string) (c : ascii) : bool :=
  existsb (Ascii.eqb c) (list_ascii_of_string set).

Definition all_chars (p : ascii → bool) (s : string) : bool :=
  forallb p (list_ascii_of_string s).

Definition lower_char (c : ascii) : ascii :=
  if is_upper c then ascii_of_N (code c + 32) else c.

Fixpoint map_chars (f : ascii → ascii) (s : string) : string :=
  match s with
  | EmptyString => EmptyString
  | String c s' => String (f c) (map_chars f s')
  end.

(** ASCII lower-casing; the other characters are left alone. *)
Definition toLowerCase : string → string := map_chars lower_char.

(** The longest prefix free of delimiters, and what follows it. *)
Fixpoint break (delim : ascii → bool) (s : string) : string * string :=
  match s with
  | EmptyString => (EmptyString, EmptyString)
  | String c s' =>
      if delim c then (EmptyString, s)
      else let '(a, b) := break delim s' in (String c a, b)
  end.

Fixpoint skip (n : nat) (s : string) : string :=
  match n, s with
  | S k, String _ s' => skip k s'
  | _, _ => s
  end.

Definition hex_value (c : ascii) : option N :=
  if is_digit c then Some (code c - 48)%N
  else if between 65 70 c then Some (code c - 55)%N
  else if between 97 102 c then Some (code c - 87)%N
  else None.

Definition hex_digit (n : N) : ascii :=
  if (n <? 10)%N then ascii_of_N (48 + n) else ascii_of_N (55 + n).

Definition escape (c : ascii) : string :=
  String "%" (String (hex_digit (code c / 16)) (String (hex_digit (code c mod 16)) "")).

(** Percent-decoding that leaves malformed escapes in place. *)
Fixpoint percent_decode (s : string) : string :=
  match s with
  | EmptyString => EmptyString
  | String c s1 =>
      match s1 with
      | String a (String b s3) =>
          match (if Ascii.eqb c "%" then hex_value a else None), hex_value b with
          | Some x, Some y => String (ascii_of_N (16 * x + y)) (percent_decode s3)
          | _, _ => String c (percent_decode s1)
          end
      | _ => String c (percent_decode s1)
      end
  end.

(** The application/x-www-form-urlencoded parser and serialiser behind
    [searchParams]. *)
Definition form_decode (s : string) : string :=
  percent_decode (map_chars (λ c, if Ascii.eqb c "+" then " "%char else c) s).

Fixpoint form_encode (s : string) : string :=
  match s with
  | EmptyString => EmptyString
  | String c s' =>
      (if is_alnum c || one_of "*-._" c then String c ""
       else if Ascii.eqb c " " then "+"
       else escape c) +:+ form_encode s'
  end.

Definition parse_pair (piece : string) : string * string :=
  let '(name, rest) := break (Ascii.eqb "=") piece in
  (form_decode name, form_decode (skip 1 rest)).

Definition parse_query (q : string) : list (string * string) :=
  map parse_pair (List.filter truthy (split q "&")).

Fixpoint join_pairs (l : list (string * string)) : string :=
  match l with
  | [] => ""
  | [(n, v)] => form_encode n +:+ "=" +:+ form_encode v
  | (n, v) :: l' => form_encode n +:+ "=" +:+ form_encode v +:+ "&" +:+ join_pairs l'
  end.

(** [set]: the first pair of that name takes the value and the later ones
    go; without such a pair, a new one is appended. *)
Fixpoint set_first (name value : string) (l : list (string * string))
  : option (list (string * string)) :=
  match l with
  | [] => None
  | (n, v) :: l' =>
      if String.eqb n name
      then Some ((n, value) :: List.filter (λ p, negb (String.eqb (fst p) name)) l')
      else option_map (cons (n, v)) (set_first name value l')
  end.

Definition set_pair (name value : string) (l : list (string * string)) :=
  default (l ++ [(name, value)]) (set_first name value l).

Record url := mkUrl {
  scheme : string;
  host : string;
  path : string;
  query : option string;
  fragment : option string;
}.

Definition host_ok (h : string) : bool :=
  truthy h
  && all_chars (λ c, is_lower c || is_digit c || one_of ".-" c) h
  && negb (includes h "xn--")
  && match last (split h ".") with
     | Some (String c _) => is_lower c
     | _ => false
     end.

Definition dquote : ascii := ascii_of_N 34.

Definition printable_except (banned : string) (c : ascii) : bool :=
  between 33 126 c && negb (one_of banned c).

Definition segment_ok (seg : string) : bool :=
  negb (startsWith seg "." || startsWith seg "%2e" || startsWith seg "%2E").

Definition path_ok (p : string) : bool :=
  all_chars (printable_except (String dquote "<>^`{}\")) p && forallb segment_ok (split p "/").

Definition scheme_ok (s : string) : bool :=
  match s with
  | String c _ => (is_upper c || is_lower c)
                  && all_chars (λ c, is_alnum c || one_of "+-." c) s
  | EmptyString => false
  end.

Definition after_mark (mark : ascii) (s : string) : option string :=
  match s with
  | String c s' => if Ascii.eqb c mark then Some s' else None
  | EmptyString => None
  end.

Definition newURL (input : string) : completion url :=
  let '(sch, r) := break (Ascii.eqb ":") input in
  let sch := toLowerCase sch in
  if negb (scheme_ok sch && (String.eqb sch "http" || String.eqb sch "https")
           && startsWith r "://")
  then Throw TypeError
  else
    let '(h, r) := break (one_of "/?#\") (skip 3 r) in
    let h := toLowerCase h in
    let '(p, r) := break (one_of "?#") r in
    let '(q, f) := break (Ascii.eqb "#") (default "" (after_mark "?" r)) in
    let q := if startsWith r "?" then Some q else None in
    let f := if startsWith r "?" then f else r in
    let f := after_mark "#" f in
    if host_ok h && path_ok p
       && all_chars (printable_except (String dquote "<>'")) (default "" q)
       && all_chars (printable_except (String dquote "<>`")) (default "" f)
    then Normal (mkUrl sch h (if truthy p then p else "/") q f)
    else Throw TypeError.

Definition searchParams_set (name value : string) (u : url) : url :=
  let pairs := set_pair name value (parse_query (default "" (query u))) in
  mkUrl (scheme u) (host u) (path u) (Some (join_pairs pairs)) (fragment u).

Definition toString (u : url) : string :=
  scheme u +:+ "://" +:+ host u +:+ path u
  +:+ match query u with Some q => "?" +:+ q | None => "" end
  +:+ match fragment u with Some f => "#" +:+ f | None => "" end.

(** [decodeURIComponent]: every escape must be two hexadecimal digits, and
    escaped bytes above 127 must come as a UTF-8 sequence: a lead byte
    followed by its escaped continuation bytes, [pending] of which are
    still due. *)
Fixpoint decode_go (pending : nat) (s : string) : completion string :=
  match s with
  | EmptyString => match pending with O => Normal "" | S _ => Throw URIError end
  | String c s1 =>
      if Ascii.eqb c "%" then
        match s1 with
        | String a (String b s3) =>
            match hex_value a, hex_value b with
            | Some x, Some y =>
                let n := (16 * x + y)%N in
                let next (k : nat) :=
                  rest ← decode_go k s3; Normal (String (ascii_of_N n) rest) in
                match pending with
                | S k => if ((128 <=? n) && (n <=? 191))%N then next k else Throw URIError
                | O =>
                    if (n <? 128)%N then next 0%nat
                    else if ((194 <=? n) && (n <=? 223))%N then next 1%nat
                    else if ((224 <=? n) && (n <=? 239))%N then next 2%nat
                    else if ((240 <=? n) && (n <=? 244))%N then next 3%nat
                    else Throw URIError
                end
            | _, _ => Throw URIError
            end
        | _ => Throw URIError
        end
      else
        match pending with
        | O => rest ← decode_go 0 s1; Normal (String c rest)
        | S _ => Throw URIError
        end
  end.

Definition decodeURIComponent (s : string) : completion string := decode_go 0 s.

End Web.

(** The concrete platform.  It is passed explicitly wherever it is used. *)
Definition web : Platform := {|
  URL := Web.url;
  newURL := Web.newURL;
  hostname := Web.host;
  pathname := Web.path;
  searchParams_set := Web.searchParams_set;
  URL_toString := Web.toString;
  decodeURIComponent := Web.decodeURIComponent;
  toLowerCase := Web.toLowerCase;
|}.

(** The catalogs of the two pages on the concrete platform. *)
Definition returned {A} (c : completion (list A)) : list A :=
  match c with
  | Normal l => l
  | Throw _ => []
  end.

Definition named_photos : list Photo := returned (Named.catalog (H := web)).
Definition unnamed_photos : list Photo := returned (Unnamed.catalog (H := web)).

(** Scenario A of the specification: two entries for one asset at
    different sizes make a catalog of one. *)
Definition scenario_A : list RawPhoto := [
  {| raw_id := "first"; raw_title := "A"; raw_tag := "t";
     primary := "https://cache.marriott.com/is/image/prod/photo-123:Wide-Hor?wid=400" |};
  {| raw_id := "second"; raw_title := "B"; raw_tag := "t";
     primary := "https://cache.marriott.com/is/image/prod/photo-123:Wide-Hor?wid=800" |}
].

(** ** Further parts of the two files *)

(** A value of type [string | false | null | undefined]: the three values
    that are no string are [None]. *)
Definition Boolean (part : option string) : bool :=
  match part with
  | Some s => truthy s
  | None => false
  end.

(** [l.join(sep)]. *)
Fixpoint join (l : list string) (sep : string) : string :=
  match l with
  | [] => ""
  | [x] => x
  | x :: l' => x +:+ sep +:+ join l' sep
  end.

(** [parts.filter(Boolean).join(" ")]; what passes the filter is a string. *)
Definition cx (parts : list (option string)) : string :=
  join (default "" <$> List.filter Boolean parts) " ".

(** [s.replace(/c/g, new)] for one literal character [c]. *)
Fixpoint replace_all (c : ascii) (new : string) (s : string) : string :=
  match s with
  | EmptyString => EmptyString
  | String a s' =>
      if Ascii.eqb a c then new +:+ replace_all c new s'
      else String a (replace_all c new s')
  end.

(** [s.slice(start, end)] on a string. *)
Definition String_slice (s : string) (first final : Z) : string :=
  string_of_list_ascii (slice (list_ascii_of_string s) first final).

(** The first statement of [svgPlaceholderDataUri]:
    [label.replace(/&/g, "and").slice(0, 44)]. *)
Definition safe_label (label : string) : string :=
  String_slice (replace_all "&" "and" label) 0 44.

(** Whether a character occurs in a string. *)
Fixpoint occurs (c : ascii) (s : string) : bool :=
  match s with
  | EmptyString => false
  | String a s' => Ascii.eqb a c || occurs c s'
  end.

(** [arr[i]] for a number [i] that is an integer. *)
Definition array_get {A} (l : list A) (i : Z) : option A :=
  if i <? 0 then None else l !! Z.to_nat i.

(** What [Lightbox] renders: title, tag line when there is one, the
    sources handed to [SmartImage], and the two numbers of the counter
    [{index + 1} / {photos.length}].  Reading [p.title] throws when
    [photos[index]] is [undefined]. *)
Record LightboxView := {
  view_title : string;
  view_tag : option string;
  view_sources : list string;
  view_counter : Z * Z;
}.

Definition Lightbox (photos : list Photo) (index : Z) : completion LightboxView :=
  p ← receiver (array_get photos index);
  Normal {| view_title := title p;
            view_tag := if Boolean (tag p) then tag p else None;
            view_sources := sources p;
            view_counter := (index + 1, Z.of_nat (length photos)) |}.

Section LightboxKeys.
Variable photos : list Photo.

(** [lightboxIndex !== null ? <Lightbox photos={visiblePhotos}
    index={lightboxIndex} .. /> : null]. *)
Definition page_lightbox (s : GalleryState) : option (completion LightboxView) :=
  match lightboxIndex s with
  | Some i => Some (Lightbox (visiblePhotos photos s) i)
  | None => None
  end.

(** The [keydown] listener of [Lightbox], with the handlers the page
    passes: three tests in a row. *)
Definition onKey (key : string) (s : GalleryState) : GalleryState :=
  let s := if String.eqb key "Escape" then close s else s in
  let s := if String.eqb key "ArrowLeft" then prev photos s else s in
  let s := if String.eqb key "ArrowRight" then next photos s else s in
  s.

End LightboxKeys.

(** A storage that never fails: a table of items. *)
Module TableStorage.

Definition storage : Storage := {|
  store := list (string * string);
  getItem k m := Normal (MemStorage.lookup k m);
  setItem k v m := Normal (MemStorage.update k v m);
|}.

End TableStorage.

(** The other language: the argument of [setLang] in the toggle button. *)
Definition other_lang (l : Lang) : Lang :=
  match l with
  | en => fa
  | fa => en
  end.

(** * Properties *)

(** ** Builtins *)

Lemma split_go_cons sep skip cur s :
  ∃ piece rest, split_go sep skip cur s = piece :: rest.
Proof.
  revert skip cur. induction s as [|c s IH]; intros skip cur; cbn [split_go].
  - eexists _, _; reflexivity.
  - destruct skip as [|k]; [|apply IH].
    destruct (startsWith (String c s) sep); [eexists _, _; reflexivity | apply IH].
Qed.

(** [split] never returns an empty array. *)
Lemma split_first s sep : is_Some (split s sep !! 0%nat).
Proof.
  unfold split. destruct (split_go_cons sep 0 "" s) as (p & r & ->). by eexists.
Qed.

Lemma truthy_true u : truthy u = true ↔ u ≠ "".
Proof.
  unfold truthy. destruct (String.eqb_spec u ""); simpl; split; congruence.
Qed.

Lemma elem_of_Set_add x u s : x ∈ Set_add u s ↔ x ∈ s ∨ x = u.
Proof.
  unfold Set_add. case_bool_decide; [|set_solver].
  split; [by left|]. intros [?| ->]; done.
Qed.

Lemma elem_of_push x s u : x ∈ push s u ↔ x ∈ s ∨ (x = u ∧ u ≠ "").
Proof.
  unfold push. destruct (truthy u) eqn:E.
  - rewrite elem_of_Set_add. apply truthy_true in E. naive_solver.
  - assert (¬ u ≠ "") by (rewrite <- truthy_true; congruence). naive_solver.
Qed.

Lemma NoDup_push s u : NoDup s → NoDup (push s u).
Proof.
  intros Hs. unfold push, Set_add. destruct (truthy u); [|done].
  case_bool_decide; [done|].
  apply NoDup_app. split_and!; [done | set_solver | apply NoDup_singleton].
Qed.

Lemma push_known s u : u ∈ s → push s u = s.
Proof.
  intros Hu. unfold push, Set_add. destruct (truthy u); [|done].
  by rewrite bool_decide_eq_true_2.
Qed.

Lemma last_push_fresh s u : u ≠ "" → u ∉ s → last (push s u) = Some u.
Proof.
  intros Hne Hu. unfold push, Set_add.
  apply truthy_true in Hne. rewrite Hne.
  rewrite bool_decide_eq_false_2 by done. apply last_snoc.
Qed.

Lemma NoDup_foldl_push vs s : NoDup s → NoDup (foldl push s vs).
Proof.
  revert s. induction vs as [|v vs IH]; intros s Hs; simpl; [done|].
  by apply IH, NoDup_push.
Qed.

Lemma elem_of_foldl_push x vs s :
  x ∈ foldl push s vs ↔ x ∈ s ∨ (x ∈ vs ∧ x ≠ "").
Proof.
  revert s. induction vs as [|v vs IH]; intros s; simpl.
  - set_solver.
  - rewrite IH, elem_of_push. set_solver.
Qed.

Lemma foldl_push_same u vs :
  u ≠ "" → Forall (λ v, v = u) vs → foldl push [u] vs = [u].
Proof.
  intros Hne. induction 1 as [|v vs -> _ IH]; simpl; [done|].
  rewrite push_known by set_solver. done.
Qed.

Section Pushed.
Variables (variants : list string) (primary : string).
Hypothesis primary_truthy : primary ≠ "".

Lemma pushed_NoDup : NoDup (pushed variants primary).
Proof. apply NoDup_push, NoDup_foldl_push, NoDup_nil_2. Qed.

Lemma pushed_elem : primary ∈ pushed variants primary.
Proof. apply elem_of_push. by right. Qed.

Lemma pushed_last_fresh :
  Forall (λ v, v ≠ primary) variants → last (pushed variants primary) = Some primary.
Proof.
  intros Hv. apply last_push_fresh; [done|].
  rewrite elem_of_foldl_push. intros [Hin|[Hin _]]; [by apply elem_of_nil in Hin|].
  rewrite Forall_forall in Hv. by apply (Hv primary).
Qed.

Lemma pushed_all_same :
  Forall (λ v, v = primary) variants → pushed variants primary = [primary].
Proof.
  intros Hv. unfold pushed. destruct Hv as [|v vs -> Hvs]; simpl.
  - unfold push, Set_add. apply truthy_true in primary_truthy.
    by rewrite primary_truthy.
  - assert (push Set_new primary = [primary]) as ->.
    { unfold push, Set_add. apply truthy_true in primary_truthy.
      by rewrite primary_truthy. }
    rewrite foldl_push_same by done. apply push_known. set_solver.
Qed.

End Pushed.

(** ** The URL sizing functions *)

Section Sizing.
Context `{Platform}.

Lemma smartUrlSizing_unparsed url wid e :
  newURL url = Throw e → Named.smartUrlSizing url wid = url.
Proof. intros E. unfold Named.smartUrlSizing. by rewrite E. Qed.

Lemma smartUrlSizing_other_host url wid u :
  newURL url = Normal u →
  includes (hostname u) "cache.marriott.com" = false →
  Named.smartUrlSizing url wid = url.
Proof. intros E Hh. unfold Named.smartUrlSizing. rewrite E. simpl. by rewrite Hh. Qed.

(** C10.  The two sizing functions are the same function: for every
    address and every width, [smartUrlSizing] of the named variant and
    [withMarriottSizing] of the second variant return the same string. *)
Theorem sizing_variants_agree (url : string) (wid : Z) :
  Named.smartUrlSizing url wid = Unnamed.withMarriottSizing url wid.
Proof.
  unfold Named.smartUrlSizing, Unnamed.withMarriottSizing.
  destruct (newURL url) as [u|e]; simpl; [|reflexivity].
  destruct (includes (hostname u) "cache.marriott.com"); simpl; [|reflexivity].
  destruct (includes (pathname u) "/is/image/"); simpl; [reflexivity|].
  destruct (includes (pathname u) "/content/dam/marriott-renditions/"); reflexivity.
Qed.

Lemma expandSources_pushed url :
  Named.expandSources url = pushed (map (Named.smartUrlSizing url) Named.widths) url.
Proof. reflexivity. Qed.

Lemma expandSources_pushed_unnamed url :
  Unnamed.expandSources url
  = pushed (map (Unnamed.withMarriottSizing url) Unnamed.widths) url.
Proof. reflexivity. Qed.

Lemma pushed_guaranteed sizing widths expand url :
  (∀ u, expand u = pushed (map (sizing u) widths) u) →
  url ≠ "" → guaranteed_fallback sizing widths expand url.
Proof.
  intros Hshape Hne. unfold guaranteed_fallback. rewrite Hshape.
  assert (url ∈ pushed (map (sizing url) widths) url) as Hin
    by by apply pushed_elem.
  split_and!.
  - intros E. rewrite E in Hin. by apply elem_of_nil in Hin.
  - by apply pushed_NoDup.
  - done.
  - intros Hw. apply pushed_last_fresh; [done|]. by apply Forall_map.
  - intros Hw. apply pushed_all_same; [done|]. by apply Forall_map.
Qed.

(** C1, as amended.  For every non-empty address, in both variants,
    [expandSources] returns a non-empty sequence without repetition that
    contains the address; the address is the last element when no sized
    variant is the address itself, and it is the only element when every
    sized variant is the address itself, which is the case of an address
    that does not parse or is not on the recognised host and paths. *)
Theorem expandSources_fallback (url : string) :
  url ≠ "" →
  guaranteed_fallback Named.smartUrlSizing Named.widths Named.expandSources url
  ∧ guaranteed_fallback Unnamed.withMarriottSizing Unnamed.widths
      Unnamed.expandSources url.
Proof.
  intros Hne. split; apply pushed_guaranteed; auto using
    expandSources_pushed, expandSources_pushed_unnamed.
Qed.

(** An address that does not parse expands to itself alone. *)
Lemma expandSources_unparsed url e :
  url ≠ "" → newURL url = Throw e → Named.expandSources url = [url].
Proof.
  intros Hne E.
  destruct (pushed_guaranteed _ _ _ url expandSources_pushed Hne)
    as (_ & _ & _ & _ & Hsame).
  apply Hsame, Forall_forall. intros w _. by eapply smartUrlSizing_unparsed.
Qed.

(** ** The photo key *)

(** [photoKeyFromUrl] neither throws nor returns [undefined]. *)
Lemma photoKeyFromUrl_total url : ∃ k, photoKeyFromUrl url = Normal (Some k).
Proof.
  unfold photoKeyFromUrl.
  assert (∃ k, (u0 ← receiver (split url "?" !! 0%nat);
                Normal (Some (toLowerCase u0))) = Normal (Some k)) as [k Hk].
  { destruct (split_first url "?") as [x ->]. by eexists. }
  destruct (newURL url) as [u|]; simpl; [|by eexists].
  destruct (decodeURIComponent (pathname u)) as [d|]; simpl; [|by eexists].
  destruct (includes (toLowerCase d) "/is/image/").
  - match goal with |- context [split ?t ":"] =>
      destruct (split_first t ":") as [t0 ->] end. simpl.
    destruct (split_first t0 "?") as [t1 ->]. by eexists.
  - destruct (includes (toLowerCase d) "/content/dam/"); [|by eexists].
    match goal with |- context [split ?t "?"] =>
      destruct (split_first t "?") as [t1 ->] end. by eexists.
Qed.

(** The key of an address that parses and whose path decodes is a
    function of the host name and the path name alone. *)
Lemma photoKey_same_location url1 url2 u1 u2 d :
  newURL url1 = Normal u1 → newURL url2 = Normal u2 →
  hostname u1 = hostname u2 → pathname u1 = pathname u2 →
  decodeURIComponent (pathname u2) = Normal d →
  photoKeyFromUrl url1 = photoKeyFromUrl url2.
Proof.
  intros E1 E2 Hh Hp Hd. unfold photoKeyFromUrl.
  rewrite E1, E2. simpl. rewrite Hp, Hd, Hh. simpl.
  destruct (includes (toLowerCase d) "/is/image/").
  - match goal with |- context [split ?t ":"] =>
      destruct (split_first t ":") as [t0 ->] end. reflexivity.
  - destruct (includes (toLowerCase d) "/content/dam/"); reflexivity.
Qed.

Lemma reparses_spec u v :
  Named.reparses u v = true →
  ∃ u', newURL (URL_toString v) = Normal u'
        ∧ hostname u' = hostname u ∧ pathname u' = pathname u.
Proof.
  unfold Named.reparses. destruct (newURL (URL_toString v)) as [u'|]; [|done].
  intros [Hh Hp]%andb_prop. exists u'.
  by apply String.eqb_eq in Hh, Hp.
Qed.

(** Where the URL class parses its own sized serialisation back to the
    same host name and path name, and the address does not parse or has a
    path name that [decodeURIComponent] accepts, the key of the sized
    address is the key of the address; and [photoKeyFromUrl] returns a
    string for every input, never throwing. *)
Lemma photoKey_sizing_invariant (url : string) (wid : Z) :
  Named.sizing_reparses url wid = true →
  Named.decodable url = true →
  photoKeyFromUrl (Named.smartUrlSizing url wid) = photoKeyFromUrl url
  ∧ ∃ k, photoKeyFromUrl url = Normal (Some k).
Proof.
  intros Hre Hdec. split; [|apply photoKeyFromUrl_total].
  unfold Named.smartUrlSizing, Named.sizing_reparses, Named.decodable in *.
  destruct (newURL url) as [u|e] eqn:E; simpl; [|reflexivity].
  destruct (decodeURIComponent (pathname u)) as [d|] eqn:Hd; [|done].
  apply andb_prop in Hre as [Himg Hren].
  destruct (includes (hostname u) "cache.marriott.com"); simpl; [|reflexivity].
  destruct (includes (pathname u) "/is/image/"); simpl.
  { apply reparses_spec in Himg as (u' & E' & Hh & Hp).
    by eapply photoKey_same_location. }
  destruct (includes (pathname u) "/content/dam/marriott-renditions/"); simpl;
    [|reflexivity].
  apply reparses_spec in Hren as (u' & E' & Hh & Hp).
  by eapply photoKey_same_location.
Qed.

End Sizing.

(** ** Evaluation on the concrete platform *)

Lemma expandSources_fallback_witness :
  "https://cache.marriott.com/is/image/prod/photo-123:Wide-Hor" ≠ ""
  ∧ guaranteed_fallback (Named.smartUrlSizing (H := web)) Named.widths
      (Named.expandSources (H := web))
      "https://cache.marriott.com/is/image/prod/photo-123:Wide-Hor"
  ∧ guaranteed_fallback (Unnamed.withMarriottSizing (H := web))
      Unnamed.widths (Unnamed.expandSources (H := web))
      "https://cache.marriott.com/is/image/prod/photo-123:Wide-Hor".
Proof.
  split; [discriminate|].
  apply (expandSources_fallback (H := web)
           "https://cache.marriott.com/is/image/prod/photo-123:Wide-Hor").
  discriminate.
Defined.

(** C1 as stated fails on the empty string: every [push] is skipped and
    the result is the empty array. *)
Lemma expandSources_empty_input :
  ¬ (Named.expandSources (H := web) "" ≠ []
     ∧ last (Named.expandSources (H := web) "") = Some "").
Proof. vm_compute. intros [Hne _]. by apply Hne. Qed.

(** An address that already carries the first width is its own first
    variant, and the smallest variant ends the list. *)
Lemma expandSources_presized :
  Named.expandSources (H := web)
    "https://cache.marriott.com/is/image/x?wid=2200&fit=constrain"
  = [ "https://cache.marriott.com/is/image/x?wid=2200&fit=constrain";
      "https://cache.marriott.com/is/image/x?wid=1800&fit=constrain";
      "https://cache.marriott.com/is/image/x?wid=1400&fit=constrain";
      "https://cache.marriott.com/is/image/x?wid=1100&fit=constrain";
      "https://cache.marriott.com/is/image/x?wid=900&fit=constrain" ].
Proof. vm_compute. reflexivity. Qed.

(** C4 as stated fails: the host of the scenario is not the recognised
    one, and the address is the only candidate. *)
Lemma expandSources_example_host :
  ¬ (2 ≤ length (Named.expandSources (H := web)
                   "https://cache.example.com/is/image/prod/photo-123:Wide-Hor"))%nat.
Proof. vm_compute. lia. Qed.

(** C4, as amended.  On the recognised host the image-service address of
    the scenario expands to six candidates: the five sized addresses, with
    [wid] rewritten to 2200, 1800, 1400, 1100 and 900 and [fit] set to
    [constrain], then the address itself.  On the host of the scenario the
    address is the only candidate. *)
Theorem expandSources_image_service :
  Named.expandSources (H := web)
    "https://cache.marriott.com/is/image/prod/photo-123:Wide-Hor"
  = [ "https://cache.marriott.com/is/image/prod/photo-123:Wide-Hor?wid=2200&fit=constrain";
      "https://cache.marriott.com/is/image/prod/photo-123:Wide-Hor?wid=1800&fit=constrain";
      "https://cache.marriott.com/is/image/prod/photo-123:Wide-Hor?wid=1400&fit=constrain";
      "https://cache.marriott.com/is/image/prod/photo-123:Wide-Hor?wid=1100&fit=constrain";
      "https://cache.marriott.com/is/image/prod/photo-123:Wide-Hor?wid=900&fit=constrain";
      "https://cache.marriott.com/is/image/prod/photo-123:Wide-Hor" ]
  ∧ Named.expandSources (H := web)
      "https://cache.example.com/is/image/prod/photo-123:Wide-Hor"
    = [ "https://cache.example.com/is/image/prod/photo-123:Wide-Hor" ].
Proof. split; vm_compute; reflexivity. Qed.

Example photoKey_sizing_invariant_drone :
  Named.sizing_reparses (H := web)
    "https://cache.marriott.com/is/image/marriotts7prod/lc-bjvlc-drone-view-23060%3AWide-Hor"
    2200 = true
  ∧ Named.decodable (H := web)
      "https://cache.marriott.com/is/image/marriotts7prod/lc-bjvlc-drone-view-23060%3AWide-Hor"
    = true
  ∧ photoKeyFromUrl (H := web)
      (Named.smartUrlSizing (H := web)
         "https://cache.marriott.com/is/image/marriotts7prod/lc-bjvlc-drone-view-23060%3AWide-Hor"
         2200)
    = photoKeyFromUrl (H := web)
        "https://cache.marriott.com/is/image/marriotts7prod/lc-bjvlc-drone-view-23060%3AWide-Hor".
Proof.
  split; [vm_compute; reflexivity|]. split; [vm_compute; reflexivity|].
  apply (photoKey_sizing_invariant (H := web)
           "https://cache.marriott.com/is/image/marriotts7prod/lc-bjvlc-drone-view-23060%3AWide-Hor"
           2200); vm_compute; reflexivity.
Defined.

(** C3.  The key is not invariant under the sizing rewrite at an address
    of the recognised host and path whose path name does not decode and
    which carries a fragment: [decodeURIComponent] throws, the handler
    written for addresses that do not parse cuts the address at its first
    question mark, and so the key of the address keeps the fragment while
    the key of the sized address ends before the query. *)
Theorem photoKey_sizing_divergence :
  Named.smartUrlSizing (H := web)
    "https://cache.marriott.com/is/image/a%zz#frag" 2200
  = "https://cache.marriott.com/is/image/a%zz?wid=2200&fit=constrain#frag"
  ∧ photoKeyFromUrl (H := web)
      "https://cache.marriott.com/is/image/a%zz#frag"
    = Normal (Some "https://cache.marriott.com/is/image/a%zz#frag")
  ∧ photoKeyFromUrl (H := web)
      (Named.smartUrlSizing (H := web)
         "https://cache.marriott.com/is/image/a%zz#frag" 2200)
    = Normal (Some "https://cache.marriott.com/is/image/a%zz").
Proof. repeat split; vm_compute; reflexivity. Qed.

Lemma photoKey_sizing_not_invariant :
  ¬ (∀ (url : string) (wid : Z),
       photoKeyFromUrl (H := web) (Named.smartUrlSizing (H := web) url wid)
       = photoKeyFromUrl (H := web) url).
Proof.
  intros Hall.
  specialize (Hall "https://cache.marriott.com/is/image/a%zz#frag" 2200).
  vm_compute in Hall. discriminate.
Qed.

(** ** The photo catalog *)

Section CatalogProperties.
Context `{Platform}.
Variable expandSources : string → list string.

Lemma skip_test k (seen : gset string) :
  negb (truthy k) || bool_decide (k ∈ seen) = bool_decide (k = "" ∨ k ∈ seen).
Proof.
  clear expandSources.
  unfold truthy. rewrite negb_involutive.
  destruct (String.eqb_spec k "") as [->|Hne].
  - rewrite (bool_decide_eq_true_2 ("" = "" ∨ _)) by (by left). done.
  - simpl. apply bool_decide_ext. naive_solver.
Qed.

(** The loop returns, and appends exactly the entries [kept] selects. *)
Lemma photos_loop_kept seen out todo :
  photos_loop seen out todo = Normal (out ++ kept seen todo).
Proof.
  clear expandSources.
  revert seen out. induction todo as [|p todo IH]; intros seen out; simpl.
  - by rewrite app_nil_r.
  - unfold photoKey.
    destruct (photoKeyFromUrl_total (key_source p)) as [k ->]. simpl.
    rewrite skip_test. case_bool_decide; rewrite IH; [done|].
    by rewrite <- app_assoc.
Qed.

Lemma kept_app seen l1 l2 :
  kept seen (l1 ++ l2) = kept seen l1 ++ kept (seen_after seen l1) l2.
Proof.
  clear expandSources.
  revert seen. induction l1 as [|p l1 IH]; intros seen; simpl; [done|].
  case_bool_decide; rewrite IH; done.
Qed.

Lemma elem_of_seen_after k seen l :
  k ∈ seen_after seen l ↔ k ∈ seen ∨ (k ≠ "" ∧ k ∈ (photoKey <$> l)).
Proof.
  clear expandSources.
  revert seen. induction l as [|p l IH]; intros seen; simpl.
  - set_solver.
  - case_bool_decide as Hp; rewrite IH; set_solver.
Qed.

Lemma kept_sublist seen l : kept seen l `sublist_of` l.
Proof.
  clear expandSources.
  revert seen. induction l as [|p l IH]; intros seen; simpl; [constructor|].
  case_bool_decide; [apply sublist_cons | apply sublist_skip]; apply IH.
Qed.

Lemma kept_keys seen l k :
  k ∈ (photoKey <$> kept seen l) → k ≠ "" ∧ (k ∉ seen) ∧ k ∈ (photoKey <$> l).
Proof.
  clear expandSources.
  revert seen. induction l as [|p l IH]; intros seen; simpl.
  - by intros ?%elem_of_nil.
  - case_bool_decide as Hp.
    + intros Hk. apply IH in Hk as (? & ? & ?). set_solver.
    + rewrite fmap_cons, elem_of_cons. intros [->|Hk]; [set_solver|].
      apply IH in Hk as (? & ? & ?). set_solver.
Qed.

Lemma kept_NoDup seen l : NoDup (photoKey <$> kept seen l).
Proof.
  clear expandSources.
  revert seen. induction l as [|p l IH]; intros seen; simpl; [constructor|].
  case_bool_decide; [apply IH|].
  rewrite fmap_cons. constructor; [|apply IH].
  intros Hk. apply kept_keys in Hk as (_ & Hk & _). set_solver.
Qed.

(** The later of two entries with the same key leaves no trace: the
    builder returns what it returns on the table without it. *)
Corollary photos_loop_later_duplicate l1 a l2 b l3 :
  photoKey a = photoKey b →
  photos_loop ∅ [] (l1 ++ a :: l2 ++ b :: l3)
  = photos_loop ∅ [] (l1 ++ a :: l2 ++ l3).
Proof.
  clear expandSources.
  intros Hk. rewrite !photos_loop_kept. f_equal. f_equal.
  change (l1 ++ a :: l2 ++ b :: l3) with (l1 ++ (a :: l2) ++ b :: l3).
  change (l1 ++ a :: l2 ++ l3) with (l1 ++ (a :: l2) ++ l3).
  rewrite !app_assoc, !(kept_app _ ((l1 ++ a :: l2))). f_equal. simpl.
  rewrite bool_decide_eq_true_2; [done|].
  destruct (decide (photoKey b = "")); [by left|]. right.
  apply elem_of_seen_after. right. split; [done|].
  rewrite fmap_app, fmap_cons, Hk. set_solver.
Qed.

(** The photo a record is built into, the key the loop computes for a
    record and the key it computes for a photo, written out as the source
    does: the key is [photoKeyFromUrl] of [sources[0]], the first
    candidate of the record's canonical address, or of the id when there
    is no candidate. *)
Local Abbreviation photo_of r :=
  {| id := raw_id r; title := raw_title r; tag := Some (raw_tag r);
     sources := expandSources (primary r) |}.
Local Abbreviation record_key r :=
  (photoKeyFromUrl (default (raw_id r) (expandSources (primary r) !! 0%nat))).
Local Abbreviation photo_key p :=
  (photoKeyFromUrl (default (id p) (sources p !! 0%nat))).

Lemma record_key_photoKey (r : RawPhoto) :
  record_key r = Normal (Some (photoKey (photo_of r))).
Proof.
  unfold photoKey, key_source. simpl.
  by destruct (photoKeyFromUrl_total
                 (default (raw_id r) (expandSources (primary r) !! 0%nat)))
    as [k ->].
Qed.

Lemma photo_key_photoKey (p : Photo) :
  photo_key p = Normal (Some (photoKey p)).
Proof.
  unfold photoKey, key_source.
  by destruct (photoKeyFromUrl_total (default (id p) (sources p !! 0%nat)))
    as [k ->].
Qed.

Lemma built_map raw : built expandSources raw = map (λ r, photo_of r) raw.
Proof. reflexivity. Qed.

Lemma built_app l1 l2 :
  built expandSources (l1 ++ l2)
  = built expandSources l1 ++ built expandSources l2.
Proof. unfold built. apply map_app. Qed.

Lemma built_keys k l :
  k ∈ (photoKey <$> built expandSources l)
  ↔ Exists (λ q, record_key q = Normal (Some k)) l.
Proof.
  induction l as [|q l IH].
  - split; [by intros ?%elem_of_nil | by inversion 1].
  - change (built expandSources (q :: l))
      with (photo_of q :: built expandSources l).
    rewrite fmap_cons, elem_of_cons, Exists_cons, IH, record_key_photoKey.
    split; (intros [Hq|Hl]; [left|by right]); congruence.
Qed.

(** C2.  For every table of records the catalog builder returns a list
    [out] of photos, and:
    - [out] is a subsequence of the records, each built into its photo
      with the candidates of its canonical address, in the order of the
      table;
    - no two photos of [out] have the same key, and no key is empty;
    - wherever a record [r] stands in the table, [out] is what the records
      before [r] produce, then the photo of [r] when its key is non-empty
      and is the key of no record before it, and nothing for [r]
      otherwise, then photos of records after [r];
    - so of two records with the same key the later one has no effect:
      the builder returns [out] also on the table without it. *)
Theorem photos_first_occurrence (raw : list RawPhoto) :
  ∃ out, photos expandSources raw = Normal out
    ∧ out `sublist_of` map (λ r, photo_of r) raw
    ∧ (∀ i j p q, out !! i = Some p → out !! j = Some q →
         photo_key p = photo_key q → i = j)
    ∧ (∀ p, p ∈ out → ∃ k, photo_key p = Normal (Some k) ∧ k ≠ "")
    ∧ (∀ before r after, raw = before ++ r :: after →
         ∃ k o1 o2,
           record_key r = Normal (Some k)
           ∧ photos expandSources before = Normal o1
           ∧ o2 `sublist_of` map (λ q, photo_of q) after
           ∧ (k ≠ "" →
              Forall (λ q, record_key q ≠ Normal (Some k)) before →
              out = o1 ++ photo_of r :: o2)
           ∧ (k = "" ∨ Exists (λ q, record_key q = Normal (Some k)) before →
              out = o1 ++ o2))
    ∧ (∀ l1 a l2 b l3, raw = l1 ++ a :: l2 ++ b :: l3 →
         record_key a = record_key b →
         photos expandSources (l1 ++ a :: l2 ++ l3) = Normal out).
Proof.
  exists (kept ∅ (built expandSources raw)). split_and!.
  - unfold photos. by rewrite photos_loop_kept.
  - rewrite <- built_map. apply kept_sublist.
  - intros i j p q Hp Hq Hkey.
    rewrite !photo_key_photoKey in Hkey. injection Hkey as Hkey.
    apply (NoDup_lookup (photoKey <$> kept ∅ (built expandSources raw))
             i j (photoKey p)); [apply kept_NoDup|..];
      rewrite list_lookup_fmap; [by rewrite Hp | by rewrite Hq, Hkey].
  - intros p Hp. exists (photoKey p). split; [apply photo_key_photoKey|].
    apply (list_elem_of_fmap_2 photoKey) in Hp.
    by apply kept_keys in Hp as (Hne & _).
  - intros before r after ->.
    set (k := photoKey (photo_of r)).
    set (seen := seen_after ∅ (built expandSources before)).
    exists k, (kept ∅ (built expandSources before)),
      (if bool_decide (k = "" ∨ k ∈ seen)
       then kept seen (built expandSources after)
       else kept ({[k]} ∪ seen) (built expandSources after)).
    assert (kept ∅ (built expandSources (before ++ r :: after))
            = kept ∅ (built expandSources before)
              ++ (if bool_decide (k = "" ∨ k ∈ seen)
                  then kept seen (built expandSources after)
                  else photo_of r
                       :: kept ({[k]} ∪ seen) (built expandSources after)))
      as Hout by (by rewrite built_app, kept_app).
    assert (k ∈ seen ↔ k ≠ "" ∧ Exists (λ q, record_key q = Normal (Some k)) before)
      as Hseen.
    { unfold seen. rewrite elem_of_seen_after, built_keys. set_solver. }
    split_and!.
    + apply record_key_photoKey.
    + unfold photos. by rewrite photos_loop_kept.
    + rewrite <- built_map. case_bool_decide; apply kept_sublist.
    + intros Hne Hfirst. rewrite Hout, bool_decide_eq_false_2; [done|].
      intros [?|[_ Hex]%Hseen]; [done|].
      apply Exists_exists in Hex as (q & Hq & Hkq).
      rewrite Forall_forall in Hfirst. by apply (Hfirst q).
    + intros Hdrop. rewrite Hout, bool_decide_eq_true_2; [done|].
      destruct (decide (k = "")); [by left|right].
      apply Hseen. naive_solver.
  - intros l1 a l2 b l3 -> Hkey.
    rewrite !record_key_photoKey in Hkey. injection Hkey as Hkey.
    pose proof (photos_loop_later_duplicate
                  (built expandSources l1) (photo_of a) (built expandSources l2)
                  (photo_of b) (built expandSources l3) Hkey) as Hsame.
    rewrite !photos_loop_kept in Hsame. injection Hsame as Hsame.
    unfold photos. rewrite photos_loop_kept. f_equal.
    change (l1 ++ a :: l2 ++ b :: l3) with (l1 ++ [a] ++ l2 ++ [b] ++ l3).
    change (l1 ++ a :: l2 ++ l3) with (l1 ++ [a] ++ l2 ++ l3).
    rewrite !built_app. symmetry. exact Hsame.
Qed.

End CatalogProperties.

(** ** SmartImage *)

Section Cursor.
Variable sources : list string.

Lemma after_failures_closed_form k :
  after_failures sources k = Z.min (Z.of_nat k) (Z.of_nat (length sources)).
Proof.
  induction k as [|k IH]; [unfold after_failures; simpl; lia|].
  unfold after_failures in *. rewrite Nat.iter_succ, IH. unfold onError.
  destruct (Z.leb_spec (Z.min (Z.of_nat k) (Z.of_nat (length sources)) + 1)
              (Z.of_nat (length sources))); lia.
Qed.

(** One failure event at any cursor value, also one left over from
    another source list: the cursor does not decrease, stays within a
    bound it was within, and does not move once at or past the end. *)
Lemma onError_step (v : Z) :
  v <= onError sources v
  ∧ (v <= Z.of_nat (length sources) → onError sources v <= Z.of_nat (length sources))
  ∧ (Z.of_nat (length sources) <= v → onError sources v = v).
Proof.
  unfold onError.
  destruct (Z.leb_spec (v + 1) (Z.of_nat (length sources))); lia.
Qed.

(** C5.  From the initial cursor 0, after any number [k] of load
    failures: one more failure does not decrease the cursor, nor do [j]
    more; the cursor is between 0 and [sources.length]; once
    [sources.length] failures have happened the cursor is
    [sources.length] and stays there whatever follows; a failure at
    [sources.length] changes nothing. *)
Theorem cursor_monotone_capped (k j : nat) :
  after_failures sources k <= after_failures sources (S k)
  ∧ after_failures sources k <= after_failures sources (k + j)
  ∧ 0 <= after_failures sources k <= Z.of_nat (length sources)
  ∧ after_failures sources (length sources + k) = Z.of_nat (length sources)
  ∧ onError sources (Z.of_nat (length sources)) = Z.of_nat (length sources).
Proof.
  rewrite !after_failures_closed_form. split_and!; try lia.
  unfold onError. destruct (Z.leb_spec (Z.of_nat (length sources) + 1)
                              (Z.of_nat (length sources))); lia.
Qed.

End Cursor.

(** Scenario C of the specification. *)
Example cursor_scenario :
  let sources := ["bad1"; "bad2"; "good"] in
  SmartImage_src (λ _, "placeholder") sources "alt" (after_failures sources 2)
  = Some "good"
  ∧ after_failures sources 3 = 3
  ∧ after_failures sources 4 = 3
  ∧ SmartImage_src (λ _, "placeholder") sources "alt" (after_failures sources 3)
    = Some "placeholder".
Proof. repeat split. Qed.

(** ** Lightbox navigation *)

Lemma rem_mod_nonneg a n : 0 <= a → 0 < n → Z.rem a n = a mod n.
Proof. intros. apply Z.rem_mod_nonneg; lia. Qed.




(** Scenario D of the specification, and the slice of one photo. *)
Example lightbox_scenario :
  prev_index 5 (Some 0) = Some 4
  ∧ next_index 1 (Some 0) = Some 0 ∧ prev_index 1 (Some 0) = Some 0.
Proof. repeat split. Qed.

(** ** Gallery state *)

Lemma length_slice_prefix {A} (l : list A) (final : Z) :
  0 <= final →
  Z.of_nat (length (slice l 0 final)) = Z.min final (Z.of_nat (length l)).
Proof.
  intros Hf. unfold slice, relative_index.
  rewrite length_take, length_drop.
  destruct (Z.ltb_spec 0 0), (Z.ltb_spec final 0); lia.
Qed.

Lemma length_slice_featured {A} (l : list A) (i : nat) :
  (i < length (slice l 2 5))%nat → (i + 2 < length l)%nat.
Proof.
  unfold slice, relative_index. rewrite length_take, length_drop.
  destruct (Z.ltb_spec 2 0), (Z.ltb_spec 5 0); lia.
Qed.

Section GalleryProperties.
Variable photos : list Photo.

Lemma visible_length s :
  0 <= visibleCount s →
  Z.of_nat (length (visiblePhotos photos s))
  = Z.min (visibleCount s) (Z.of_nat (length photos)).
Proof.
  intros Hv. unfold visiblePhotos. rewrite length_slice_prefix by lia. lia.
Qed.

Lemma run_invariant (P : GalleryState → Prop) s0 :
  P s0 →
  (∀ s e s', P s → step photos s e = Some s' → P s') →
  ∀ events s, run photos s0 events = Some s → P s.
Proof.
  intros H0 Hstep events. revert s0 H0.
  induction events as [|e events IH]; intros s0 H0 s; simpl.
  - by intros [= <-].
  - destruct (step photos s0 e) as [s1|] eqn:E; simpl; [|done].
    apply IH. by eapply Hstep.
Qed.

(** What an event does to the number of visible photos. *)
Lemma step_visibleCount s e s' :
  step photos s e = Some s' →
  visibleCount s' = visibleCount s
  ∨ (visibleCount s < Z.of_nat (length photos)
     ∧ visibleCount s' = Z.min (visibleCount s + 12) (Z.of_nat (length photos))).
Proof.
  destruct e; simpl; try case_bool_decide; try (intros [= <-]; by left); try done.
  destruct (Z.ltb_spec (visibleCount s) (Z.of_nat (length photos))); [|done].
  intros [= <-]. right. by split.
Qed.

Lemma visibleCount_at_least_12 events s :
  run photos initial events = Some s → 12 <= visibleCount s.
Proof.
  apply (run_invariant (λ s, 12 <= visibleCount s)); [done|].
  intros s0 e s' H0 [->|[? ->]]%step_visibleCount; lia.
Qed.

(** C7.  With a catalog of at least twelve photos, as both pages have:
    in every state reached from the initial one, [visibleCount] is at most
    [catalog.length]; no event decreases it or takes it above
    [catalog.length]; and load-more is possible exactly while
    [visibleCount < catalog.length], setting [visibleCount] to
    [min(visibleCount + 12, catalog.length)]. *)
Theorem visibleCount_monotone_bounded
    (events : list GalleryEvent) (s : GalleryState) :
  (12 ≤ length photos)%nat →
  run photos initial events = Some s →
  visibleCount s <= Z.of_nat (length photos)
  ∧ (∀ e s', step photos s e = Some s' →
       visibleCount s <= visibleCount s' <= Z.of_nat (length photos))
  ∧ step photos s LoadMore
    = if visibleCount s <? Z.of_nat (length photos)
      then Some {| visibleCount :=
                     Z.min (visibleCount s + 12) (Z.of_nat (length photos));
                   lightboxIndex := lightboxIndex s |}
      else None.
Proof.
  intros Hlen Hrun.
  assert (visibleCount s <= Z.of_nat (length photos)) as Hs.
  { revert events s Hrun.
    apply (run_invariant (λ s, visibleCount s <= Z.of_nat (length photos))).
    - simpl. lia.
    - intros s0 e s' H0 [->|[? ->]]%step_visibleCount; lia. }
  split_and!; [done| |done].
  intros e s' [->|[? ->]]%step_visibleCount; lia.
Qed.

Lemma step_index_valid s e s' :
  12 <= visibleCount s → index_valid photos s →
  step photos s e = Some s' → index_valid photos s'.
Proof.
  intros Hv Hi. unfold index_valid in *.
  destruct e; simpl; try case_bool_decide; try done; try (intros [= <-]; simpl).
  - unfold visiblePhotos in *. simpl. lia.
  - unfold visiblePhotos in *. simpl.
    match goal with H : (_ < length (slice _ 2 5))%nat |- _ =>
      apply length_slice_featured in H end. lia.
  - done.
  - destruct (lightboxIndex s) as [i|]; simpl; [|done].
    change (visiblePhotos photos (prev photos s)) with (visiblePhotos photos s).
    pose proof (Z.rem_bound_pos (i - 1 + Z.of_nat (length (visiblePhotos photos s)))
                  (Z.of_nat (length (visiblePhotos photos s)))). lia.
  - destruct (lightboxIndex s) as [i|]; simpl; [|done].
    change (visiblePhotos photos (next photos s)) with (visiblePhotos photos s).
    pose proof (Z.rem_bound_pos (i + 1)
                  (Z.of_nat (length (visiblePhotos photos s)))). lia.
  - destruct (Z.ltb_spec (visibleCount s) (Z.of_nat (length photos))); [|done].
    intros [= <-]. simpl. destruct (lightboxIndex s) as [i|]; [|done].
    rewrite visible_length in * by (simpl; lia). simpl. lia.
Qed.

(** C8.  In every state reached from the initial one, an open lightbox
    index is a valid index into the visible photos, and every event that
    can happen there (opening from a thumbnail of the grid or of the
    featured strip, prev, next, close, load-more) leads to such a state
    again. *)
Theorem lightboxIndex_valid (events : list GalleryEvent) (s : GalleryState) :
  run photos initial events = Some s →
  index_valid photos s
  ∧ ∀ e s', step photos s e = Some s' → index_valid photos s'.
Proof.
  intros Hrun.
  assert (12 <= visibleCount s ∧ index_valid photos s) as [Hv Hi].
  { revert events s Hrun.
    apply (run_invariant (λ s, 12 <= visibleCount s ∧ index_valid photos s)).
    - split; [simpl; lia | exact I].
    - intros s0 e s' [Hv Hi] Hstep. split; [|by eapply step_index_valid].
      apply step_visibleCount in Hstep as [->|[? ->]]; lia. }
  split; [done|]. intros e s'. by apply step_index_valid.
Qed.

End GalleryProperties.

(** ** The language preference *)

Section LanguageProperties.
Context `{Storage}.

(** C9.  At startup the language is read under the key [wedding_lang]:
    a stored [fa] or [en] becomes the language, and an absent value, any
    other value or a failing read leaves the default [en].  Setting the
    language makes it the language of the session whatever the storage
    does; a change writes the new value under the same key, and a failing
    write leaves the storage as it was; setting the current language does
    nothing.  None of these can throw: they return a page. *)
Theorem language_preference (st : store) :
  lang (mount st)
  = match getItem "wedding_lang" st with
    | Normal (Some v) => if String.eqb v "fa" then fa else en
    | Normal None | Throw _ => en
    end
  ∧ (∀ (p : Page) (l : Lang),
       lang (setLang l p) = l
       ∧ (l ≠ lang p →
          localStorage (setLang l p)
          = match setItem "wedding_lang" (Lang_string l) (localStorage p) with
            | Normal st' => st'
            | Throw _ => localStorage p
            end))
  ∧ (∀ p : Page, setLang (lang p) p = p).
Proof.
  split_and!.
  - unfold mount, restore_effect.
    destruct (getItem "wedding_lang" st) as [[v|]|]; simpl; try reflexivity.
    destruct (String.eqb v "fa"); [reflexivity|].
    destruct (String.eqb v "en"); reflexivity.
  - intros p l. unfold setLang, persist_effect.
    destruct l, (lang p) eqn:E; simpl; try done.
    all: split; [done|]; intros _.
    all: by destruct (setItem _ _ _).
  - intros p. unfold setLang. by destruct (lang p).
Qed.

(** Scenario E of the specification, for a storage that returns what was
    written: a change of language that was written is the language of the
    next startup. *)
Lemma language_restored (p : Page) (l : Lang) st' :
  l ≠ lang p →
  setItem "wedding_lang" (Lang_string l) (localStorage p) = Normal st' →
  getItem "wedding_lang" st' = Normal (Some (Lang_string l)) →
  localStorage (setLang l p) = st' ∧ lang (mount st') = l.
Proof.
  intros Hl Hset Hget. split.
  - unfold setLang, persist_effect.
    destruct l, (lang p); try done; simpl in *; by rewrite Hset.
  - unfold mount, restore_effect. rewrite Hget. by destruct l.
Qed.

End LanguageProperties.

Lemma language_preference_witness :
  lang (mount (H := MemStorage.storage)
          {| MemStorage.items := [("wedding_lang", "fa")];
             MemStorage.denied := false |}) = fa
  ∧ lang (mount (H := MemStorage.storage)
            {| MemStorage.items := []; MemStorage.denied := true |}) = en.
Proof.
  split.
  - destruct (language_preference (H := MemStorage.storage)
                {| MemStorage.items := [("wedding_lang", "fa")];
                   MemStorage.denied := false |}) as [E _].
    rewrite E. reflexivity.
  - destruct (language_preference (H := MemStorage.storage)
                {| MemStorage.items := []; MemStorage.denied := true |}) as [E _].
    rewrite E. reflexivity.
Defined.

(** With storage denied the toggle still changes the language of the
    session, and the storage stays as it was. *)
Example language_storage_denied :
  let p := mount (H := MemStorage.storage)
             {| MemStorage.items := []; MemStorage.denied := true |} in
  lang p = en
  ∧ lang (toggle p) = fa
  ∧ localStorage (toggle p) = {| MemStorage.items := []; MemStorage.denied := true |}.
Proof. repeat split. Qed.

Example language_reload :
  let p := mount (H := MemStorage.storage)
             {| MemStorage.items := []; MemStorage.denied := false |} in
  lang p = en ∧ lang (mount (localStorage (toggle p))) = fa.
Proof. repeat split. Qed.

(** ** The catalogs of the two pages *)

Lemma named_catalog_ids :
  id <$> named_photos
  = [ "drone-bay-1"; "drone-resort-2"; "hotel-exterior"; "beach-hero";
      "private-beach"; "cabanas"; "pool-main"; "sunset-lounge";
      "glass-restaurant"; "buddha-bar"; "spa"; "indoor-pool" ].
Proof. vm_compute. reflexivity. Qed.

Lemma unnamed_catalog_ids :
  id <$> unnamed_photos
  = [ "drone-bay-1"; "drone-resort-2"; "hotel-exterior"; "beach-hero";
      "private-beach"; "deck-wide"; "cabanas"; "pool-main"; "pool-alt-1";
      "sunset-lounge"; "glass-restaurant"; "glass-lounge"; "buddha-bar";
      "la-zucca"; "spa"; "spa-hot-tub"; "indoor-pool" ].
Proof. vm_compute. reflexivity. Qed.

Lemma photos_first_occurrence_witness :
  photos (H := web) (Named.expandSources (H := web)) scenario_A
  = Normal
      [ {| id := "first"; title := "A"; tag := Some "t";
           sources :=
             [ "https://cache.marriott.com/is/image/prod/photo-123:Wide-Hor?wid=2200&fit=constrain";
               "https://cache.marriott.com/is/image/prod/photo-123:Wide-Hor?wid=1800&fit=constrain";
               "https://cache.marriott.com/is/image/prod/photo-123:Wide-Hor?wid=1400&fit=constrain";
               "https://cache.marriott.com/is/image/prod/photo-123:Wide-Hor?wid=1100&fit=constrain";
               "https://cache.marriott.com/is/image/prod/photo-123:Wide-Hor?wid=900&fit=constrain";
               "https://cache.marriott.com/is/image/prod/photo-123:Wide-Hor?wid=400" ] |} ].
Proof.
  destruct (photos_first_occurrence (H := web) (Named.expandSources (H := web))
              scenario_A) as (out & Hout & _ & _ & _ & Hplace & _).
  destruct (Hplace
              [ {| raw_id := "first"; raw_title := "A"; raw_tag := "t";
                   primary := "https://cache.marriott.com/is/image/prod/photo-123:Wide-Hor?wid=400" |} ]
              {| raw_id := "second"; raw_title := "B"; raw_tag := "t";
                 primary := "https://cache.marriott.com/is/image/prod/photo-123:Wide-Hor?wid=800" |}
              [] eq_refl)
    as (k & o1 & o2 & Hk & Ho1 & Ho2 & _ & Hdrop).
  rewrite Hout. f_equal.
  vm_compute in Hk. injection Hk as <-.
  vm_compute in Ho1. injection Ho1 as <-.
  apply sublist_nil_r in Ho2. subst o2.
  apply Hdrop. right. constructor. vm_compute. reflexivity.
Defined.

Example scenario_A_catalog :
  id <$> returned (photos (H := web) (Named.expandSources (H := web)) scenario_A)
  = ["first"].
Proof. vm_compute. reflexivity. Qed.

Lemma visibleCount_monotone_bounded_witness :
  (12 ≤ length unnamed_photos)%nat
  ∧ run unnamed_photos initial [LoadMore]
    = Some {| visibleCount := 17; lightboxIndex := None |}
  ∧ visibleCount {| visibleCount := 17; lightboxIndex := None |}
    <= Z.of_nat (length unnamed_photos).
Proof.
  assert (12 ≤ length unnamed_photos)%nat as Hlen by (vm_compute; lia).
  assert (run unnamed_photos initial [LoadMore]
          = Some {| visibleCount := 17; lightboxIndex := None |}) as Hrun
    by (vm_compute; reflexivity).
  split; [exact Hlen|]. split; [exact Hrun|].
  exact (proj1 (visibleCount_monotone_bounded unnamed_photos [LoadMore] _ Hlen Hrun)).
Defined.

Lemma lightboxIndex_valid_witness :
  run named_photos initial [ClickFeatured 1; Prev; Prev; Prev; Prev]
  = Some {| visibleCount := 12; lightboxIndex := Some 11 |}
  ∧ index_valid named_photos {| visibleCount := 12; lightboxIndex := Some 11 |}.
Proof.
  assert (run named_photos initial [ClickFeatured 1; Prev; Prev; Prev; Prev]
          = Some {| visibleCount := 12; lightboxIndex := Some 11 |}) as Hrun
    by (vm_compute; reflexivity).
  split; [exact Hrun|].
  exact (proj1 (lightboxIndex_valid named_photos _ _ Hrun)).
Defined.

(** * Further properties *)

(** ** Strings *)

Lemma append_cons c s t : String c s +:+ t = String c (s +:+ t).
Proof. reflexivity. Qed.

Lemma append_empty_l s : "" +:+ s = s.
Proof. reflexivity. Qed.

Lemma append_empty_r s : s +:+ "" = s.
Proof.
  induction s as [|c s IH]; [done|]. by rewrite append_cons, IH.
Qed.

Lemma append_assoc s1 s2 s3 : (s1 +:+ s2) +:+ s3 = s1 +:+ (s2 +:+ s3).
Proof.
  induction s1 as [|c s1 IH]; [done|]. by rewrite !append_cons, IH.
Qed.

Lemma append_empty_inv s1 s2 : s1 +:+ s2 = "" → s1 = "" ∧ s2 = "".
Proof. destruct s1; [done|]. rewrite append_cons. discriminate. Qed.

Lemma occurs_append c s1 s2 : occurs c (s1 +:+ s2) = occurs c s1 || occurs c s2.
Proof.
  induction s1 as [|a s1 IH]; [done|].
  rewrite append_cons. simpl. by rewrite IH, orb_assoc.
Qed.

Lemma startsWith_char s c :
  startsWith s (String c "")
  = match s with
    | String a _ => Ascii.eqb c a
    | EmptyString => false
    end.
Proof.
  destruct s as [|a s]; simpl; [done|].
  destruct (Ascii.eqb c a); [by destruct s|done].
Qed.

(** [s.includes(c)] for a string [c] of one character. *)
Lemma includes_char s c : includes s (String c "") = occurs c s.
Proof.
  induction s as [|a s IH]; [done|].
  cbn [includes occurs]. rewrite startsWith_char, IH.
  by rewrite (Ascii.eqb_sym c a).
Qed.

(** ** cx *)

Lemma join_truthy l sep :
  l ≠ [] → Forall (λ s, s ≠ "") l → join l sep ≠ "".
Proof.
  destruct l as [|x [|y l]]; [done| |]; intros _ Hl; simpl.
  - by inversion Hl.
  - inversion Hl; subst. intros [? _]%append_empty_inv. done.
Qed.

Lemma join_app l1 l2 sep :
  l1 ≠ [] → l2 ≠ [] →
  join (l1 ++ l2) sep = join l1 sep +:+ sep +:+ join l2 sep.
Proof.
  intros H1 H2. induction l1 as [|x l1 IH]; [done|].
  destruct l1 as [|y l1].
  - destruct l2; [done|]. reflexivity.
  - change (join ((x :: y :: l1) ++ l2) sep)
      with (x +:+ sep +:+ join ((y :: l1) ++ l2) sep).
    rewrite IH by done.
    change (join (x :: y :: l1) sep) with (x +:+ sep +:+ join (y :: l1) sep).
    by rewrite !append_assoc.
Qed.

Lemma filter_Boolean_truthy parts :
  Forall (λ s, s ≠ "") (default "" <$> List.filter Boolean parts).
Proof.
  induction parts as [|[s|] parts IH]; simpl; [constructor| |done].
  destruct (truthy s) eqn:E; [|done].
  rewrite fmap_cons. constructor; [|done]. by apply truthy_true.
Qed.

Lemma cx_empty_iff parts : cx parts = "" ↔ List.filter Boolean parts = [].
Proof.
  unfold cx. split; [|by intros ->].
  intros E. destruct (List.filter Boolean parts) as [|p l] eqn:Hf; [done|].
  exfalso. revert E. apply join_truthy; [done|].
  rewrite <- Hf. apply filter_Boolean_truthy.
Qed.

Lemma cx_app a b :
  cx (a ++ b)
  = if Boolean (Some (cx a))
    then if Boolean (Some (cx b)) then cx a +:+ " " +:+ cx b else cx a
    else cx b.
Proof.
  pose proof (cx_empty_iff a) as Ha. pose proof (cx_empty_iff b) as Hb.
  unfold Boolean, truthy.
  destruct (String.eqb_spec (cx a) "") as [Ea|Ea];
    destruct (String.eqb_spec (cx b) "") as [Eb|Eb]; simpl.
  - unfold cx. rewrite List.filter_app.
    by rewrite (proj1 Ha Ea), (proj1 Hb Eb).
  - unfold cx. rewrite List.filter_app. by rewrite (proj1 Ha Ea).
  - unfold cx. rewrite List.filter_app, (proj1 Hb Eb). by rewrite List.app_nil_r.
  - unfold cx in *. rewrite List.filter_app, fmap_app.
    apply join_app; intros E%fmap_nil_inv; [apply Ea | apply Eb];
      by rewrite E.
Qed.

(** X1.  [cx] drops what is falsy and flattens: a class string built by
    [cx] can be passed to [cx] again, and the result is the same as
    passing all the parts at once; a part that is [false], [null],
    [undefined] or the empty string changes nothing; and the result is the
    empty string exactly when no part is truthy. *)
Theorem cx_flatten (a b : list (option string)) (falsy : option string) :
  Boolean falsy = false →
  cx [Some (cx a); Some (cx b)] = cx (a ++ b)
  ∧ cx (a ++ falsy :: b) = cx (a ++ b)
  ∧ (cx a = "" ↔ Forall (λ p, Boolean p = false) a).
Proof.
  intros Hf. split_and!.
  - rewrite cx_app. unfold cx at 1. simpl.
    destruct (truthy (cx a)), (truthy (cx b)) eqn:Eb; simpl; try done.
    unfold truthy in Eb. by destruct (String.eqb_spec (cx b) "").
  - unfold cx. rewrite !List.filter_app. simpl. by rewrite Hf.
  - rewrite cx_empty_iff. induction a as [|p a IH]; simpl.
    + split; [constructor|done].
    + destruct (Boolean p) eqn:E.
      * split; [done|]. inversion 1; congruence.
      * rewrite IH. split; [by constructor|by inversion 1].
Qed.

Lemma cx_flatten_witness :
  Boolean None = false
  ∧ cx [Some (cx [Some "flex"; None]); Some (cx [Some ""; Some "text-right"])]
    = cx [Some "flex"; None; Some ""; Some "text-right"].
Proof.
  split; [reflexivity|].
  exact (proj1 (cx_flatten [Some "flex"; None] [Some ""; Some "text-right"]
                  None eq_refl)).
Defined.

(** ** The label of the placeholder image *)

Lemma slice_prefix_take {A} (l : list A) (final : Z) :
  0 <= final → slice l 0 final = take (Z.to_nat final) l.
Proof.
  intros Hf. unfold slice, relative_index.
  destruct (Z.ltb_spec 0 0); [lia|]. destruct (Z.ltb_spec final 0); [lia|].
  replace (Z.to_nat (Z.min 0 (Z.of_nat (length l)))) with 0%nat by lia.
  rewrite drop_0.
  destruct (Z.le_ge_cases final (Z.of_nat (length l))).
  - do 2 f_equal. lia.
  - rewrite !take_ge; [done|lia..].
Qed.

Lemma length_string_of_list_ascii l :
  String.length (string_of_list_ascii l) = length l.
Proof. induction l as [|a l IH]; simpl; [done|]. by rewrite IH. Qed.

Lemma length_list_ascii_of_string s :
  length (list_ascii_of_string s) = String.length s.
Proof. induction s as [|a s IH]; simpl; [done|]. by rewrite IH. Qed.

Lemma occurs_take c n l :
  occurs c (string_of_list_ascii l) = false →
  occurs c (string_of_list_ascii (take n l)) = false.
Proof.
  revert n. induction l as [|a l IH]; intros [|n]; simpl; try done.
  intros [-> Hl]%orb_false_elim. simpl. by apply IH.
Qed.

Lemma occurs_replace_all c new s :
  occurs c new = false → occurs c (replace_all c new s) = false.
Proof.
  intros Hnew. induction s as [|a s IH]; simpl; [done|].
  destruct (Ascii.eqb a c) eqn:E.
  - by rewrite occurs_append, Hnew, IH.
  - simpl. by rewrite E, IH.
Qed.

Lemma replace_all_absent c new s :
  occurs c s = false → replace_all c new s = s.
Proof.
  induction s as [|a s IH]; simpl; [done|].
  intros [-> Hs]%orb_false_elim. by rewrite IH.
Qed.

Lemma safe_label_short label :
  occurs "&" label = false → (String.length label ≤ 44)%nat →
  safe_label label = label.
Proof.
  intros Hamp Hlen. unfold safe_label, String_slice.
  rewrite replace_all_absent by done.
  rewrite slice_prefix_take by lia.
  rewrite take_ge by (rewrite length_list_ascii_of_string; lia).
  apply string_of_list_ascii_of_string.
Qed.

Lemma safe_label_occurs label : occurs "&" (safe_label label) = false.
Proof.
  unfold safe_label, String_slice. rewrite slice_prefix_take by lia.
  apply occurs_take. rewrite string_of_list_ascii_of_string.
  by apply occurs_replace_all.
Qed.

Lemma safe_label_length label : (String.length (safe_label label) ≤ 44)%nat.
Proof.
  unfold safe_label, String_slice. rewrite slice_prefix_take by lia.
  rewrite length_string_of_list_ascii, length_take. lia.
Qed.

(** X2.  The label that [svgPlaceholderDataUri] writes into the image
    contains no ampersand and has at most 44 characters, for every input;
    sanitising twice is the same as once; and a label of at most 44
    characters without an ampersand is written as it is. *)
Theorem safe_label_clean (label : string) :
  includes (safe_label label) "&" = false
  ∧ (String.length (safe_label label) ≤ 44)%nat
  ∧ safe_label (safe_label label) = safe_label label
  ∧ (includes label "&" = false → (String.length label ≤ 44)%nat →
     safe_label label = label).
Proof.
  rewrite !includes_char. split_and!.
  - apply safe_label_occurs.
  - apply safe_label_length.
  - apply safe_label_short; [apply safe_label_occurs | apply safe_label_length].
  - apply safe_label_short.
Qed.

Lemma safe_label_clean_witness :
  safe_label "Private beach & teak decks" = "Private beach and teak decks"
  ∧ safe_label (safe_label "Private beach & teak decks")
    = safe_label "Private beach & teak decks"
  ∧ safe_label "Sunset Lounge" = "Sunset Lounge".
Proof.
  split; [reflexivity|]. split.
  - exact (proj1 (proj2 (proj2 (safe_label_clean "Private beach & teak decks")))).
  - apply (proj2 (proj2 (proj2 (safe_label_clean "Sunset Lounge"))));
      [reflexivity | vm_compute; lia].
Defined.

(** ** The candidates of a photo and their display *)

Lemma foldl_push_sublist vs s :
  ∃ t, foldl push s vs = s ++ t ∧ t `sublist_of` vs.
Proof.
  revert s. induction vs as [|v vs IH]; intros s; simpl.
  - exists []. by rewrite app_nil_r.
  - destruct (IH (push s v)) as (t & -> & Ht).
    unfold push, Set_add. destruct (truthy v); [case_bool_decide|].
    + exists t. split; [done|]. by apply sublist_cons.
    + exists (v :: t). split; [by rewrite <- app_assoc|]. by apply sublist_skip.
    + exists t. split; [done|]. by apply sublist_cons.
Qed.

Lemma pushed_sublist vs primary : pushed vs primary `sublist_of` vs ++ [primary].
Proof.
  unfold pushed.
  change (push (foldl push Set_new vs) primary)
    with (foldl push (foldl push Set_new vs) [primary]).
  rewrite <- foldl_app.
  by destruct (foldl_push_sublist (vs ++ [primary]) Set_new) as (t & -> & Ht).
Qed.

Lemma pushed_truthy vs primary : Forall (λ s, s ≠ "") (pushed vs primary).
Proof.
  apply Forall_forall. intros x. unfold pushed.
  rewrite elem_of_push, elem_of_foldl_push.
  intros [[Hx|[_ Hx]]|[-> Hx]]; [by apply elem_of_nil in Hx|done..].
Qed.

Lemma pushed_length vs primary : (length (pushed vs primary) ≤ S (length vs))%nat.
Proof.
  pose proof (sublist_length _ _ (pushed_sublist vs primary)) as Hl.
  rewrite length_app in Hl. simpl in Hl. lia.
Qed.

Section Candidates.
Context `{Platform}.

(** X3.  In both variants the candidates of an address are non-empty
    strings, and they are a subsequence of the sized addresses in the
    order of the widths followed by the address itself: candidates never
    come out of order, and there are at most six of them in the named
    variant and five in the second. *)
Theorem expandSources_candidates (url : string) :
  (Forall (λ s, s ≠ "") (Named.expandSources url)
   ∧ Named.expandSources url
       `sublist_of` (Named.smartUrlSizing url <$> Named.widths) ++ [url]
   ∧ (length (Named.expandSources url) ≤ 6)%nat)
  ∧ (Forall (λ s, s ≠ "") (Unnamed.expandSources url)
     ∧ Unnamed.expandSources url
         `sublist_of` (Unnamed.withMarriottSizing url <$> Unnamed.widths) ++ [url]
     ∧ (length (Unnamed.expandSources url) ≤ 5)%nat).
Proof.
  rewrite expandSources_pushed, expandSources_pushed_unnamed.
  split; split_and!; try apply pushed_truthy; try apply pushed_sublist.
  - pose proof (pushed_length (Named.smartUrlSizing url <$> Named.widths) url)
      as Hl. rewrite length_fmap in Hl. exact Hl.
  - pose proof (pushed_length (Unnamed.withMarriottSizing url <$> Unnamed.widths)
                  url) as Hl. rewrite length_fmap in Hl. exact Hl.
Qed.

Lemma expandSources_length url : (length (Named.expandSources url) ≤ 6)%nat.
Proof.
  rewrite expandSources_pushed.
  pose proof (pushed_length (Named.smartUrlSizing url <$> Named.widths) url)
    as Hl. rewrite length_fmap in Hl. exact Hl.
Qed.

Lemma expandSources_length_unnamed url :
  (length (Unnamed.expandSources url) ≤ 5)%nat.
Proof.
  rewrite expandSources_pushed_unnamed.
  pose proof (pushed_length (Unnamed.withMarriottSizing url <$> Unnamed.widths)
                url) as Hl. rewrite length_fmap in Hl. exact Hl.
Qed.

End Candidates.

Section Display.
Variable svgPlaceholderDataUri : string → string.
Variable sources : list string.

Lemma src_after_failures alt k :
  SmartImage_src svgPlaceholderDataUri sources alt (after_failures sources k)
  = Some (default (svgPlaceholderDataUri alt) (sources !! k)).
Proof.
  rewrite after_failures_closed_form. unfold SmartImage_src.
  destruct (Z.ltb_spec (Z.min (Z.of_nat k) (Z.of_nat (length sources)))
              (Z.of_nat (length sources))) as [Hlt|Hge].
  - replace (Z.to_nat (Z.min (Z.of_nat k) (Z.of_nat (length sources))))
      with k by lia.
    destruct (lookup_lt_is_Some_2 sources k ltac:(lia)) as [x ->]. done.
  - rewrite (lookup_ge_None_2 sources k) by lia. done.
Qed.

(** X4.  What [SmartImage] shows after [k] load failures: the source
    number [k] while there is one, and the placeholder for the alternative
    text from then on.  So the sources are tried one by one in their
    order, none is skipped or tried again, and the image always has a
    [src]. *)
Theorem SmartImage_display (alt : string) (k : nat) :
  SmartImage_src svgPlaceholderDataUri sources alt (after_failures sources k)
  = match sources !! k with
    | Some source => Some source
    | None => Some (svgPlaceholderDataUri alt)
    end
  ∧ (sources !! k = None ↔ (length sources ≤ k)%nat).
Proof.
  rewrite src_after_failures. split; [by destruct (sources !! k)|].
  apply lookup_ge_None.
Qed.

End Display.

(** X5.  A photo is given up after six load failures in the named
    variant, and after five in the second: whatever its address, the
    placeholder is shown from then on. *)
Theorem SmartImage_gives_up `{Platform}
    (svgPlaceholderDataUri : string → string) (url alt : string) (k j : nat) :
  (6 ≤ k)%nat → (5 ≤ j)%nat →
  SmartImage_src svgPlaceholderDataUri (Named.expandSources url) alt
    (after_failures (Named.expandSources url) k)
  = Some (svgPlaceholderDataUri alt)
  ∧ SmartImage_src svgPlaceholderDataUri (Unnamed.expandSources url) alt
      (after_failures (Unnamed.expandSources url) j)
    = Some (svgPlaceholderDataUri alt).
Proof.
  intros Hk Hj. rewrite !src_after_failures.
  pose proof (expandSources_length url).
  pose proof (expandSources_length_unnamed url).
  rewrite !lookup_ge_None_2 by lia. done.
Qed.

Lemma SmartImage_gives_up_witness :
  (6 ≤ 6)%nat ∧ (5 ≤ 5)%nat
  ∧ SmartImage_src (λ _, "placeholder")
      (Named.expandSources (H := web)
         "https://cache.marriott.com/is/image/prod/photo-123:Wide-Hor")
      "alt"
      (after_failures
         (Named.expandSources (H := web)
            "https://cache.marriott.com/is/image/prod/photo-123:Wide-Hor") 6)
    = Some "placeholder".
Proof.
  split; [lia|]. split; [lia|].
  exact (proj1 (SmartImage_gives_up (H := web) (λ _, "placeholder")
                  "https://cache.marriott.com/is/image/prod/photo-123:Wide-Hor"
                  "alt" 6 5 (le_n 6) (le_n 5))).
Defined.

(** ** The shape of photo keys *)

Lemma split_go_occurs d sep skip cur s :
  occurs d s = false → occurs d cur = false →
  Forall (λ piece, occurs d piece = false) (split_go sep skip cur s).
Proof.
  revert skip cur. induction s as [|a s IH]; intros skip cur Hs Hcur;
    cbn [split_go].
  - by repeat constructor.
  - simpl in Hs. apply orb_false_elim in Hs as [Ha Hs].
    destruct skip as [|k]; [|by apply IH].
    destruct (startsWith (String a s) sep).
    + constructor; [done|]. by apply IH.
    + apply IH; [done|]. rewrite occurs_append. simpl. by rewrite Hcur, Ha.
Qed.

Lemma split_go_char_free c cur s :
  occurs c cur = false →
  Forall (λ piece, occurs c piece = false) (split_go (String c "") 0 cur s).
Proof.
  revert cur. induction s as [|a s IH]; intros cur Hcur; cbn [split_go].
  - by repeat constructor.
  - rewrite startsWith_char.
    destruct (Ascii.eqb c a) eqn:E.
    + constructor; [done|]. by apply IH.
    + apply IH. rewrite occurs_append. simpl.
      by rewrite Hcur, (Ascii.eqb_sym a c), E.
Qed.

(** A piece of [s.split(sep)] has no character that [s] does not have. *)
Lemma piece_occurs d s sep piece :
  piece ∈ split s sep → occurs d s = false → occurs d piece = false.
Proof.
  intros Hin Hs.
  pose proof (split_go_occurs d sep 0 "" s Hs eq_refl) as Hall.
  rewrite Forall_forall in Hall. by apply Hall.
Qed.

(** A piece of [s.split(c)] for one character [c] does not contain [c]. *)
Lemma piece_char_free c s piece :
  piece ∈ split s (String c "") → occurs c piece = false.
Proof.
  intros Hin.
  pose proof (split_go_char_free c "" s eq_refl) as Hall.
  rewrite Forall_forall in Hall. by apply Hall.
Qed.

Lemma split_last s sep : ∃ piece, last (split s sep) = Some piece.
Proof.
  apply last_is_Some. unfold split.
  by destruct (split_go_cons sep 0 "" s) as (p & r & ->).
Qed.

Section KeyShape.
Context `{Platform}.

(** X6.  For two addresses that parse, the key depends on the host name
    and the path name only, when the path name decodes: addresses that
    differ in scheme, port, query or fragment have the same key. *)
Theorem photoKey_location_only (url1 url2 : string) (u1 u2 : URL) (d : string) :
  newURL url1 = Normal u1 → newURL url2 = Normal u2 →
  hostname u1 = hostname u2 → pathname u1 = pathname u2 →
  decodeURIComponent (pathname u2) = Normal d →
  photoKeyFromUrl url1 = photoKeyFromUrl url2.
Proof. apply photoKey_same_location. Qed.

(** X7.  The key of an address whose decoded, lower-cased path contains
    [/is/image/] contains no slash, no colon and no question mark; the key
    of one whose path contains [/content/dam/] instead contains no slash
    and no question mark. *)
Theorem photoKey_bare (url : string) (u : URL) (d k : string) :
  newURL url = Normal u →
  decodeURIComponent (pathname u) = Normal d →
  photoKeyFromUrl url = Normal (Some k) →
  (includes (toLowerCase d) "/is/image/" = true →
   includes k "/" = false ∧ includes k ":" = false ∧ includes k "?" = false)
  ∧ (includes (toLowerCase d) "/is/image/" = false →
     includes (toLowerCase d) "/content/dam/" = true →
     includes k "/" = false ∧ includes k "?" = false).
Proof.
  intros E Hd Hk. unfold photoKeyFromUrl in Hk. rewrite E in Hk. simpl in Hk.
  rewrite Hd in Hk. simpl in Hk. rewrite !includes_char.
  split.
  - intros Himg. rewrite Himg in Hk.
    set (file := default (toLowerCase d)
                   (split (toLowerCase d) "/is/image/" !! 1%nat)) in *.
    destruct (split_last file "/") as [tail Htail].
    rewrite Htail in Hk. simpl in Hk.
    destruct (split_first tail ":") as [t0 Ht0]. rewrite Ht0 in Hk.
    simpl in Hk. injection Hk as Hk.
    apply list_elem_of_lookup_2 in Hk, Ht0. apply last_Some_elem_of in Htail.
    assert (occurs "/" tail = false) by by eapply piece_char_free.
    assert (occurs "/" t0 = false) by by eapply piece_occurs.
    assert (occurs ":" t0 = false) by by eapply piece_char_free.
    split_and!; [by eapply piece_occurs.. | by eapply piece_char_free].
  - intros Himg Hdam. rewrite Himg, Hdam in Hk.
    destruct (split_last (toLowerCase d) "/") as [tail Htail].
    rewrite Htail in Hk. simpl in Hk. injection Hk as Hk.
    apply list_elem_of_lookup_2 in Hk. apply last_Some_elem_of in Htail.
    assert (occurs "/" tail = false) by by eapply piece_char_free.
    split; [by eapply piece_occurs | by eapply piece_char_free].
Qed.

End KeyShape.

Lemma photoKey_location_only_witness :
  photoKeyFromUrl (H := web)
    "HTTPS://cache.marriott.com/is/image/prod/photo-123%3AWide-Hor?wid=400#top"
  = photoKeyFromUrl (H := web)
      "http://cache.marriott.com/is/image/prod/photo-123%3AWide-Hor?wid=800&fit=constrain".
Proof.
  eapply (photoKey_location_only (H := web)); vm_compute; reflexivity.
Defined.

Lemma photoKey_bare_witness :
  includes "lc-bjvlc-drone-view-23060" "/" = false
  ∧ includes "lc-bjvlc-drone-view-23060" ":" = false
  ∧ includes "lc-bjvlc-drone-view-23060" "?" = false.
Proof.
  refine (proj1 (photoKey_bare (H := web)
    "https://cache.marriott.com/is/image/marriotts7prod/lc-bjvlc-drone-view-23060%3AWide-Hor?wid=2200&fit=constrain"
    _ _ "lc-bjvlc-drone-view-23060" _ _ _) _); vm_compute; reflexivity.
Defined.

(** ** The catalog builder on its own output *)

Section CatalogFurther.
Context `{Platform}.

Lemma kept_idempotent seen l : kept seen (kept seen l) = kept seen l.
Proof.
  revert seen. induction l as [|p l IH]; intros seen; simpl; [done|].
  case_bool_decide as Hp; [apply IH|].
  simpl. rewrite bool_decide_eq_false_2 by done. by rewrite IH.
Qed.

Lemma kept_keys_iff seen l k :
  k ∈ (photoKey <$> kept seen l)
  ↔ k ≠ "" ∧ (k ∉ seen) ∧ k ∈ (photoKey <$> l).
Proof.
  split; [apply kept_keys|].
  revert seen. induction l as [|p l IH]; intros seen (Hne & Hseen & Hin); simpl.
  - done.
  - rewrite fmap_cons, elem_of_cons in Hin.
    case_bool_decide as Hp.
    + apply IH. split_and!; [done..|]. destruct Hin as [->|]; [|done].
      naive_solver.
    + rewrite fmap_cons, elem_of_cons.
      destruct (decide (k = photoKey p)) as [->|Hk]; [by left|right].
      apply IH. split_and!; [done|set_solver|]. by destruct Hin.
Qed.

Lemma kept_length seen l : (length (kept seen l) ≤ length l)%nat.
Proof. apply sublist_length, kept_sublist. Qed.

Lemma kept_all seen l :
  NoDup (photoKey <$> l) →
  Forall (λ p, photoKey p ≠ "" ∧ photoKey p ∉ seen) l →
  kept seen l = l.
Proof.
  revert seen. induction l as [|p l IH]; intros seen Hnd Hall; simpl; [done|].
  rewrite fmap_cons in Hnd. apply NoDup_cons in Hnd as [Hp Hnd].
  apply Forall_cons in Hall as [Hhead Hall]. destruct Hhead as [Hne Hseen].
  rewrite bool_decide_eq_false_2 by naive_solver.
  f_equal. apply IH; [done|].
  rewrite Forall_forall in Hall |- *. intros q Hq.
  destruct (Hall q Hq) as [? ?]. split; [done|].
  assert (photoKey q ≠ photoKey p); [|set_solver].
  intros E. apply Hp. rewrite <- E. by apply list_elem_of_fmap_2.
Qed.

(** X8.  The builder's loop is idempotent: run on its own output it
    returns that output unchanged. *)
Theorem photos_loop_idempotent (todo out : list Photo) :
  photos_loop ∅ [] todo = Normal out →
  photos_loop ∅ [] out = Normal out.
Proof.
  rewrite !photos_loop_kept. simpl. intros [= <-].
  by rewrite kept_idempotent.
Qed.

(** X9.  The builder loses no asset and invents none: its output is no
    longer than its input; a non-empty key is the key of an output entry
    exactly when it is the key of an input entry; and when the keys of the
    input are non-empty and pairwise different the output is the input. *)
Theorem photos_loop_coverage (todo out : list Photo) :
  photos_loop ∅ [] todo = Normal out →
  (length out ≤ length todo)%nat
  ∧ (∀ k, k ≠ "" → k ∈ (photoKey <$> out) ↔ k ∈ (photoKey <$> todo))
  ∧ (NoDup (photoKey <$> todo) → "" ∉ (photoKey <$> todo) → out = todo).
Proof.
  rewrite photos_loop_kept. simpl. intros [= <-]. split_and!.
  - apply kept_length.
  - intros k Hk. rewrite kept_keys_iff. set_solver.
  - intros Hnd Hne. apply kept_all; [done|].
    apply Forall_forall. intros p Hp. split; [|set_solver].
    intros E. apply Hne. rewrite <- E. by apply list_elem_of_fmap_2.
Qed.

End CatalogFurther.

Lemma photos_loop_idempotent_witness :
  ∃ out,
    photos_loop (H := web) ∅ []
      (built (Named.expandSources (H := web)) scenario_A) = Normal out
    ∧ photos_loop (H := web) ∅ [] out = Normal out.
Proof.
  eexists. split; [vm_compute; reflexivity|].
  apply (photos_loop_idempotent (H := web)
           (built (Named.expandSources (H := web)) scenario_A)).
  vm_compute. reflexivity.
Defined.

Lemma photos_loop_coverage_witness :
  ∃ out,
    photos_loop (H := web) ∅ []
      (built (Named.expandSources (H := web)) scenario_A) = Normal out
    ∧ (length out ≤ length (built (Named.expandSources (H := web)) scenario_A))%nat.
Proof.
  eexists. split; [vm_compute; reflexivity|].
  apply (photos_loop_coverage (H := web)
           (built (Named.expandSources (H := web)) scenario_A)).
  vm_compute. reflexivity.
Defined.

(** ** More on the gallery and the lightbox *)

Lemma slice_featured {A} (l : list A) : slice l 2 5 = take 3 (drop 2 l).
Proof.
  unfold slice, relative_index.
  destruct (Z.ltb_spec 2 0); [lia|]. destruct (Z.ltb_spec 5 0); [lia|].
  destruct (decide (5 ≤ length l)%nat).
  - do 2 f_equal; lia.
  - destruct (decide (2 ≤ length l)%nat).
    + replace (Z.to_nat (Z.min 2 (Z.of_nat (length l)))) with 2%nat by lia.
      rewrite !take_ge; [done|rewrite length_drop; lia..].
    + rewrite !drop_ge by lia. by rewrite !take_nil.
Qed.

Lemma slice_featured_lookup {A} (l : list A) (i : nat) (x : A) :
  slice l 2 5 !! i = Some x → l !! (i + 2)%nat = Some x.
Proof.
  rewrite slice_featured. intros Hx.
  destruct (decide (i < 3)%nat).
  - rewrite lookup_take_lt, lookup_drop in Hx by done.
    by rewrite Nat.add_comm.
  - by rewrite lookup_take_ge in Hx by lia.
Qed.

Lemma prev_next_index n i :
  1 <= n → 0 <= i < n → prev_index n (next_index n (Some i)) = Some i.
Proof.
  intros Hn Hi. simpl. f_equal.
  destruct (decide (i + 1 = n)) as [E|E].
  - rewrite E, Z.rem_same by lia. rewrite Z.rem_small; lia.
  - rewrite (Z.rem_small (i + 1)) by lia.
    rewrite rem_mod_nonneg by lia.
    replace (i + 1 - 1 + n) with (i + 1 * n) by lia.
    rewrite Z.mod_add by lia. apply Z.mod_small. lia.
Qed.

Lemma next_prev_index n i :
  1 <= n → 0 <= i < n → next_index n (prev_index n (Some i)) = Some i.
Proof.
  intros Hn Hi. simpl. f_equal.
  destruct (decide (i = 0)) as [E|E].
  - subst i. rewrite (Z.rem_small (0 - 1 + n)) by lia.
    replace (0 - 1 + n + 1) with n by lia. apply Z.rem_same. lia.
  - rewrite (rem_mod_nonneg (i - 1 + n)) by lia.
    replace (i - 1 + n) with (i - 1 + 1 * n) by lia.
    rewrite Z.mod_add by lia. rewrite (Z.mod_small (i - 1)) by lia.
    rewrite Z.rem_small; lia.
Qed.

Section GalleryFurther.
Variable photos : list Photo.

Lemma run_snoc s events e :
  run photos s (events ++ [e]) = run photos s events ≫= λ s', step photos s' e.
Proof.
  revert s. induction events as [|e0 events IH]; intros s; simpl.
  - by destruct (step photos s e).
  - destruct (step photos s e0); simpl; [apply IH|done].
Qed.

(** X10.  Clicking load-more [k] times from the start: the clicks are all
    possible exactly while 12 times [k] is less than the number of photos,
    and then [min(12 + 12 k, catalog.length)] photos are visible.  So the
    whole catalog is visible after finitely many clicks, and the button is
    gone from then on. *)
Theorem loadMore_clicks (k : nat) :
  run photos initial (replicate k LoadMore)
  = if bool_decide (k = 0%nat) then Some initial
    else if 12 * Z.of_nat k <? Z.of_nat (length photos)
         then Some {| visibleCount :=
                        Z.min (12 + 12 * Z.of_nat k) (Z.of_nat (length photos));
                      lightboxIndex := None |}
         else None.
Proof.
  induction k as [|k IH]; [done|].
  rewrite replicate_S_end, run_snoc, IH. clear IH.
  rewrite (bool_decide_eq_false_2 (S k = 0%nat)) by done.
  case_bool_decide as Hk.
  - subst k. reflexivity.
  - destruct (Z.ltb_spec (12 * Z.of_nat k) (Z.of_nat (length photos)));
      destruct (Z.ltb_spec (12 * Z.of_nat (S k)) (Z.of_nat (length photos)));
      simpl; try lia; try done.
    + destruct (Z.ltb_spec
                  (Z.min (12 + 12 * Z.of_nat k) (Z.of_nat (length photos)))
                  (Z.of_nat (length photos))); [|lia].
      unfold loadMore. simpl. do 2 f_equal. lia.
    + destruct (Z.ltb_spec
                  (Z.min (12 + 12 * Z.of_nat k) (Z.of_nat (length photos)))
                  (Z.of_nat (length photos))); [lia|done].
Qed.

Lemma visiblePhotos_take s :
  0 <= visibleCount s →
  visiblePhotos photos s = take (Z.to_nat (visibleCount s)) photos.
Proof.
  intros Hv. unfold visiblePhotos. rewrite slice_prefix_take by lia.
  destruct (Z.le_ge_cases (visibleCount s) (Z.of_nat (length photos))).
  - do 2 f_equal. lia.
  - rewrite !take_ge; [done|lia..].
Qed.

Lemma reachable_valid events s :
  run photos initial events = Some s →
  12 <= visibleCount s ∧ index_valid photos s.
Proof.
  revert events s.
  apply (run_invariant photos (λ s, 12 <= visibleCount s ∧ index_valid photos s)).
  - split; [simpl; lia | exact I].
  - intros s0 e s' [Hv Hi] Hstep. split; [|by eapply step_index_valid].
    apply step_visibleCount in Hstep as [->|[? ->]]; lia.
Qed.

(** X11.  The visible photos only grow at the end: after any event, the
    photos that were visible are still visible at the same positions, and
    the visible photos are always the first photos of the catalog.  An
    open lightbox therefore keeps showing the same photo when more photos
    are loaded. *)
Theorem visible_slice_grows (events : list GalleryEvent) (s : GalleryState)
    (e : GalleryEvent) (s' : GalleryState) :
  run photos initial events = Some s →
  step photos s e = Some s' →
  visiblePhotos photos s `prefix_of` visiblePhotos photos s'
  ∧ visiblePhotos photos s' `prefix_of` photos
  ∧ ∀ i p, visiblePhotos photos s !! i = Some p →
           visiblePhotos photos s' !! i = Some p.
Proof.
  intros Hrun Hstep.
  pose proof (visibleCount_at_least_12 photos events s Hrun) as Hv.
  assert (visibleCount s <= visibleCount s') as Hle
    by (apply step_visibleCount in Hstep as [->|[? ->]]; lia).
  rewrite !visiblePhotos_take by lia.
  assert (take (Z.to_nat (visibleCount s)) photos
          `prefix_of` take (Z.to_nat (visibleCount s')) photos) as Hpre.
  { replace (take (Z.to_nat (visibleCount s)) photos)
      with (take (Z.to_nat (visibleCount s))
              (take (Z.to_nat (visibleCount s')) photos)).
    - apply prefix_take.
    - rewrite take_take. f_equal. lia. }
  split_and!; [done|apply prefix_take|].
  intros i p Hp. by eapply prefix_lookup_Some.
Qed.

(** X12.  A click on a thumbnail opens the lightbox on the photo that the
    thumbnail shows: button [i] of the grid on photo [i] of the visible
    photos, and button [i] of the featured strip, which shows
    [visiblePhotos.slice(2, 5)], on photo [i] of that slice. *)
Theorem thumbnail_opens_shown (s s' : GalleryState) (i : nat) :
  (step photos s (ClickThumbnail i) = Some s' →
   ∃ p j, visiblePhotos photos s !! i = Some p
          ∧ lightboxIndex s' = Some j
          ∧ array_get (visiblePhotos photos s') j = Some p)
  ∧ (step photos s (ClickFeatured i) = Some s' →
     ∃ p j, slice (visiblePhotos photos s) 2 5 !! i = Some p
            ∧ lightboxIndex s' = Some j
            ∧ array_get (visiblePhotos photos s') j = Some p).
Proof.
  split; simpl; case_bool_decide as Hi; try done; intros [= <-].
  - destruct (lookup_lt_is_Some_2 _ _ Hi) as [p Hp].
    exists p, (Z.of_nat i). split_and!; [done..|].
    unfold array_get. destruct (Z.ltb_spec (Z.of_nat i) 0); [lia|].
    by rewrite Nat2Z.id.
  - destruct (lookup_lt_is_Some_2 _ _ Hi) as [p Hp].
    exists p, (Z.of_nat i + 2). split_and!; [done..|].
    unfold array_get. destruct (Z.ltb_spec (Z.of_nat i + 2) 0); [lia|].
    replace (Z.to_nat (Z.of_nat i + 2)) with (i + 2)%nat by lia.
    by apply slice_featured_lookup.
Qed.

(** X13.  Whenever the page renders the lightbox, in any state reached
    from the initial one, [photos[index]] is a photo: rendering does not
    throw, it shows the title, tag and sources of that photo, and the
    counter reads a position between 1 and the number of visible
    photos. *)
Theorem Lightbox_renders (events : list GalleryEvent) (s : GalleryState) (i : Z) :
  run photos initial events = Some s →
  lightboxIndex s = Some i →
  ∃ p, array_get (visiblePhotos photos s) i = Some p
       ∧ page_lightbox photos s
         = Some (Normal {| view_title := title p;
                           view_tag := if Boolean (tag p) then tag p else None;
                           view_sources := sources p;
                           view_counter :=
                             (i + 1, Z.of_nat (length (visiblePhotos photos s))) |})
       ∧ 1 <= i + 1 <= Z.of_nat (length (visiblePhotos photos s)).
Proof.
  intros Hrun Hopen.
  destruct (reachable_valid events s Hrun) as [_ Hvalid].
  unfold index_valid in Hvalid. rewrite Hopen in Hvalid.
  destruct (lookup_lt_is_Some_2 (visiblePhotos photos s) (Z.to_nat i)
              ltac:(lia)) as [p Hp].
  assert (array_get (visiblePhotos photos s) i = Some p) as Hget.
  { unfold array_get. destruct (Z.ltb_spec i 0); [lia|done]. }
  exists p. split_and!; [done| |lia..].
  unfold page_lightbox, Lightbox. rewrite Hopen, Hget. done.
Qed.

Lemma handlers_valid s :
  12 <= visibleCount s ∧ index_valid photos s →
  (12 <= visibleCount (close s) ∧ index_valid photos (close s))
  ∧ (12 <= visibleCount (prev photos s) ∧ index_valid photos (prev photos s))
  ∧ (12 <= visibleCount (next photos s) ∧ index_valid photos (next photos s)).
Proof.
  intros [Hv Hi]. split_and!; try done.
  - by apply (step_index_valid photos s Prev).
  - by apply (step_index_valid photos s Next).
Qed.

(** X14.  The keys of the open lightbox, in any state reached from the
    initial one: ArrowLeft then ArrowRight, and ArrowRight then ArrowLeft,
    come back to the same state; Escape closes; any other key changes
    nothing; and every key leaves a state in which an open index is
    valid. *)
Theorem Lightbox_keys (events : list GalleryEvent) (s : GalleryState)
    (i : Z) (key : string) :
  run photos initial events = Some s →
  lightboxIndex s = Some i →
  onKey photos "ArrowRight" (onKey photos "ArrowLeft" s) = s
  ∧ onKey photos "ArrowLeft" (onKey photos "ArrowRight" s) = s
  ∧ lightboxIndex (onKey photos "Escape" s) = None
  ∧ index_valid photos (onKey photos key s)
  ∧ (key ≠ "Escape" → key ≠ "ArrowLeft" → key ≠ "ArrowRight" →
     onKey photos key s = s).
Proof.
  intros Hrun Hopen.
  pose proof (reachable_valid events s Hrun) as Hinv.
  destruct Hinv as [Hv Hvalid] eqn:Hsave. clear Hsave.
  assert (1 <= Z.of_nat (length (visiblePhotos photos s))
          ∧ 0 <= i < Z.of_nat (length (visiblePhotos photos s))) as [Hn Hi].
  { unfold index_valid in Hvalid. rewrite Hopen in Hvalid. lia. }
  split_and!.
  - change (next photos (prev photos s) = s).
    unfold next, prev, setLightboxIndex. simpl.
    change (visiblePhotos photos
              {| visibleCount := visibleCount s;
                 lightboxIndex := _ |}) with (visiblePhotos photos s).
    rewrite Hopen, next_prev_index by done. destruct s; simpl in *; by subst.
  - change (prev photos (next photos s) = s).
    unfold next, prev, setLightboxIndex. simpl.
    change (visiblePhotos photos
              {| visibleCount := visibleCount s;
                 lightboxIndex := _ |}) with (visiblePhotos photos s).
    rewrite Hopen, prev_next_index by done. destruct s; simpl in *; by subst.
  - done.
  - unfold onKey.
    destruct (handlers_valid s (conj Hv Hvalid)) as (Hc & Hp & Hx).
    destruct (String.eqb key "Escape").
    + destruct (handlers_valid _ Hc) as (_ & Hcp & Hcn).
      destruct (String.eqb key "ArrowLeft").
      * destruct (handlers_valid _ Hcp) as (_ & _ & [_ ?]).
        by destruct (String.eqb key "ArrowRight"); [|destruct Hcp].
      * by destruct (String.eqb key "ArrowRight"); [destruct Hcn|destruct Hc].
    + destruct (String.eqb key "ArrowLeft").
      * destruct (handlers_valid _ Hp) as (_ & _ & [_ ?]).
        by destruct (String.eqb key "ArrowRight"); [|destruct Hp].
      * by destruct (String.eqb key "ArrowRight"); [destruct Hx|].
  - intros H1 H2 H3. unfold onKey.
    apply String.eqb_neq in H1, H2, H3. by rewrite H1, H2, H3.
Qed.

End GalleryFurther.

(** ** More on the language preference *)

Lemma lookup_update k v l :
  MemStorage.lookup k (MemStorage.update k v l) = Some v.
Proof.
  induction l as [|[k' v'] l IH]; simpl.
  - by rewrite String.eqb_refl.
  - destruct (String.eqb k' k) eqn:E; simpl; by rewrite E.
Qed.

(** The table storage returns what was written. *)
Lemma table_storage_lawful (v : string) (st : store (Storage := TableStorage.storage)) :
  ∃ st', setItem (Storage := TableStorage.storage) "wedding_lang" v st = Normal st'
         ∧ getItem (Storage := TableStorage.storage) "wedding_lang" st'
           = Normal (Some v).
Proof. eexists. split; [reflexivity|]. simpl. by rewrite lookup_update. Qed.

Section LanguageFurther.
Context `{Storage}.

Lemma toggle_lang (p : Page) : lang (toggle p) = other_lang (lang p).
Proof. unfold toggle, setLang. by destruct (lang p). Qed.

(** X15.  Every click on the toggle button changes the language, whatever
    the storage does: after [n] clicks the language is the one the page
    had when [n] is even, and the other one when [n] is odd. *)
Theorem toggle_parity (p : Page) (n : nat) :
  lang (Nat.iter n toggle p)
  = if Nat.even n then lang p else other_lang (lang p).
Proof.
  induction n as [|n IH]; [done|].
  rewrite Nat.iter_succ, toggle_lang, IH, Nat.even_succ, <- Nat.negb_even.
  destruct (Nat.even n), (lang p); reflexivity.
Qed.

Section Lawful.
Hypothesis lawful : ∀ (v : string) (st : store),
  ∃ st', setItem "wedding_lang" v st = Normal st'
         ∧ getItem "wedding_lang" st' = Normal (Some v).

Lemma persist_effect_stored l st :
  getItem "wedding_lang" (persist_effect l st) = Normal (Some (Lang_string l)).
Proof.
  unfold persist_effect.
  by destruct (lawful (Lang_string l) st) as (st' & -> & Hget).
Qed.

Lemma mount_stored st :
  getItem "wedding_lang" (localStorage (mount st))
  = Normal (Some (Lang_string (lang (mount st)))).
Proof.
  unfold mount. destruct (restore_effect st) as [[|]|]; simpl;
    apply persist_effect_stored.
Qed.

Lemma toggle_stored (p : Page) :
  getItem "wedding_lang" (localStorage (toggle p))
  = Normal (Some (Lang_string (lang (toggle p)))).
Proof.
  unfold toggle, setLang. destruct (lang p); simpl; apply persist_effect_stored.
Qed.

Lemma mount_reads_stored st l :
  getItem "wedding_lang" st = Normal (Some (Lang_string l)) →
  lang (mount st) = l.
Proof.
  intros Hget. unfold mount, restore_effect. rewrite Hget. by destruct l.
Qed.

End Lawful.

(** X16.  With a storage that accepts every write and returns what was
    written: after mounting and any number of clicks on the toggle button,
    the stored value is the current language, and mounting the page again
    on that storage starts in the current language.  This holds whatever
    the storage held at first, also a value that is no language. *)
Theorem language_in_sync (st : store) (n : nat) :
  (∀ (v : string) (st : store),
     ∃ st', setItem "wedding_lang" v st = Normal st'
            ∧ getItem "wedding_lang" st' = Normal (Some v)) →
  getItem "wedding_lang" (localStorage (Nat.iter n toggle (mount st)))
  = Normal (Some (Lang_string (lang (Nat.iter n toggle (mount st)))))
  ∧ lang (mount (localStorage (Nat.iter n toggle (mount st))))
    = lang (Nat.iter n toggle (mount st)).
Proof.
  intros lawful.
  assert (getItem "wedding_lang" (localStorage (Nat.iter n toggle (mount st)))
          = Normal (Some (Lang_string (lang (Nat.iter n toggle (mount st))))))
    as Hsync.
  { destruct n as [|n]; [by apply mount_stored|].
    rewrite Nat.iter_succ. by apply toggle_stored. }
  split; [done|]. by apply mount_reads_stored.
Qed.

End LanguageFurther.

Lemma language_in_sync_witness :
  lang (mount (H := TableStorage.storage)
          (localStorage
             (Nat.iter 3 toggle
                (mount (H := TableStorage.storage) [("wedding_lang", "de")]))))
  = lang (Nat.iter 3 toggle
            (mount (H := TableStorage.storage) [("wedding_lang", "de")])).
Proof.
  exact (proj2 (language_in_sync (H := TableStorage.storage)
                  [("wedding_lang", "de")] 3 table_storage_lawful)).
Defined.

Example language_in_sync_values :
  let p := Nat.iter 3 toggle
             (mount (H := TableStorage.storage) [("wedding_lang", "de")]) in
  lang p = fa ∧ localStorage p = [("wedding_lang", "fa")].
Proof. split; reflexivity. Qed.

(** ** What the sizing function leaves alone, and the lightbox out of range *)

(** X17.  [smartUrlSizing] changes an address only if the address parses
    with a host name that contains [cache.marriott.com] and a path name
    that contains [/is/image/] or [/content/dam/marriott-renditions/]; the
    result is then the serialised URL with the parameters of that
    convention set, the image-service convention taking precedence. *)
Theorem smartUrlSizing_rewrites `{Platform} (url : string) (wid : Z) :
  Named.smartUrlSizing url wid ≠ url →
  ∃ u, newURL url = Normal u
       ∧ includes (hostname u) "cache.marriott.com" = true
       ∧ ((includes (pathname u) "/is/image/" = true
           ∧ Named.smartUrlSizing url wid
             = URL_toString (Named.sized_image u wid))
          ∨ (includes (pathname u) "/is/image/" = false
             ∧ includes (pathname u) "/content/dam/marriott-renditions/" = true
             ∧ Named.smartUrlSizing url wid
               = URL_toString (Named.sized_rendition u wid))).
Proof.
  unfold Named.smartUrlSizing. intros Hne.
  destruct (newURL url) as [u|e]; simpl in *; [|done].
  exists u. split; [done|].
  destruct (includes (hostname u) "cache.marriott.com"); simpl in *; [|done].
  split; [done|].
  destruct (includes (pathname u) "/is/image/"); simpl in *; [by left|].
  destruct (includes (pathname u) "/content/dam/marriott-renditions/");
    simpl in *; [by right|done].
Qed.

Lemma smartUrlSizing_rewrites_witness :
  ∃ u, newURL (Platform := web)
         "https://cache.marriott.com/content/dam/marriott-renditions/BJVLC/bjvlc-pool-9526-hor-wide.jpg"
       = Normal u
       ∧ includes (hostname (Platform := web) u) "cache.marriott.com" = true.
Proof.
  destruct (smartUrlSizing_rewrites (H := web)
    "https://cache.marriott.com/content/dam/marriott-renditions/BJVLC/bjvlc-pool-9526-hor-wide.jpg"
    900 ltac:(vm_compute; discriminate)) as (u & Hu & Hh & _).
  exists u. split; [exact Hu | exact Hh].
Defined.

(** X18.  [Lightbox] throws exactly when its index is no position of its
    photos: rendering it on an empty list, a negative index or an index
    from the length on is a TypeError, and every other index renders. *)
Theorem Lightbox_out_of_range (photos : list Photo) (index : Z) :
  (Lightbox photos index = Throw TypeError
   ↔ ¬ (0 <= index < Z.of_nat (length photos)))
  ∧ (0 <= index < Z.of_nat (length photos) →
     ∃ view, Lightbox photos index = Normal view).
Proof.
  unfold Lightbox, array_get.
  destruct (Z.ltb_spec index 0) as [Hneg|Hpos]; simpl.
  - split; [split; [lia|done] | lia].
  - destruct (photos !! Z.to_nat index) as [p|] eqn:Hp; simpl.
    + apply lookup_lt_Some in Hp. split; [split; [done|lia] | by eexists].
    + apply lookup_ge_None in Hp. split; [split; [lia|done] | lia].
Qed.

Lemma Lightbox_out_of_range_witness :
  Lightbox [] 0 = Throw TypeError
  ∧ ∃ view, Lightbox named_photos 11 = Normal view.
Proof.
  split.
  - apply (proj1 (Lightbox_out_of_range [] 0)). simpl. lia.
  - apply (proj2 (Lightbox_out_of_range named_photos 11)). vm_compute. split; discriminate || reflexivity.
Defined.

(** ** The further gallery properties on the catalogs of the two pages *)

Lemma visible_slice_grows_witness :
  visiblePhotos unnamed_photos {| visibleCount := 12; lightboxIndex := Some 4 |}
  `prefix_of`
  visiblePhotos unnamed_photos {| visibleCount := 17; lightboxIndex := Some 4 |}.
Proof.
  refine (proj1 (visible_slice_grows unnamed_photos [ClickFeatured 2]
                   {| visibleCount := 12; lightboxIndex := Some 4 |} LoadMore
                   {| visibleCount := 17; lightboxIndex := Some 4 |} _ _));
    vm_compute; reflexivity.
Defined.

Lemma thumbnail_opens_shown_witness :
  ∃ p j, slice (visiblePhotos named_photos initial) 2 5 !! 1%nat = Some p
         ∧ lightboxIndex {| visibleCount := 12; lightboxIndex := Some 3 |} = Some j
         ∧ array_get
             (visiblePhotos named_photos
                {| visibleCount := 12; lightboxIndex := Some 3 |}) j
           = Some p.
Proof.
  apply (proj2 (thumbnail_opens_shown named_photos initial
                  {| visibleCount := 12; lightboxIndex := Some 3 |} 1)).
  vm_compute. reflexivity.
Defined.

Lemma Lightbox_renders_witness :
  ∃ p, array_get
         (visiblePhotos named_photos
            {| visibleCount := 12; lightboxIndex := Some 11 |}) 11
       = Some p
       ∧ id p = "indoor-pool".
Proof.
  destruct (Lightbox_renders named_photos [ClickThumbnail 0; Prev]
              {| visibleCount := 12; lightboxIndex := Some 11 |} 11)
    as (p & Hp & _ & _); [vm_compute; reflexivity | reflexivity |].
  exists p. split; [exact Hp|].
  vm_compute in Hp. injection Hp as <-. reflexivity.
Defined.

Lemma Lightbox_keys_witness :
  onKey named_photos "ArrowRight"
    (onKey named_photos "ArrowLeft"
       {| visibleCount := 12; lightboxIndex := Some 0 |})
  = {| visibleCount := 12; lightboxIndex := Some 0 |}.
Proof.
  refine (proj1 (Lightbox_keys named_photos [ClickThumbnail 0]
                   {| visibleCount := 12; lightboxIndex := Some 0 |} 0 "x" _ _));
    vm_compute; reflexivity.
Defined.

Example Lightbox_keys_wrap :
  lightboxIndex
    (onKey named_photos "ArrowLeft"
       {| visibleCount := 12; lightboxIndex := Some 0 |}) = Some 11.
Proof. vm_compute. reflexivity. Qed.
